(** * The external-call (reentrancy) detection module of mythril-classic

    A shallow embedding of [mythril/analysis/modules/external_calls.py]:
    the class [ExternalCallModule] with its two methods [search_children]
    and [execute], and the properties its specification states about them.

    Conventions of the embedding.
    - Python [int]s are [Z]; Python [str]s are [string].
    - The accumulator list [results] of [search_children] is a mutable
      list object that is passed down the recursion and handed back by
      it.  It lives in an explicit store of list objects, and the methods
      that touch it run in a small state-and-exception monad [Py].
    - [self.calls_visited] is an attribute of the detector instance: it
      survives a call of [execute], so [execute] returns the instance
      next to its result, also when it raises.
    - [KeyError] and [IndexError] are the two exceptions the code can
      raise on malformed graphs; nothing in the module catches them.  The
      recursion limit of the interpreter is not modelled.
    - The [logging.debug] line at the head of [search_children] is kept,
      as the sequence of node uids it is called with: it records which
      nodes a search enters.  The other debug lines only format values
      and are left out.

    The file has three parts: the embedding of the module, the
    definitions the statements need (a reading of the search on the
    elements of the accumulator, paths, concrete statespaces), and the
    properties. *)

From Stdlib Require Import ZArith String Ascii DecimalString Lia.
From stdpp Require Import base option gmap strings list.

Local Open Scope string_scope.
Local Open Scope list_scope.
Local Open Scope Z_scope.

(** ** Strings as the module uses them *)

Module PyStr.

(** [needle in hay] on Python strings. *)
Fixpoint contains (needle hay : string) : bool :=
  if String.prefix needle hay then true
  else match hay with
       | EmptyString => false
       | String _ rest => contains needle rest
       end.

(** [str(n)] for an [int]. *)
Definition of_int (n : Z) : string := NilZero.string_of_int (Z.to_int n).

(** The character class [[a-z0-9_&^]] of the storage-slot pattern. *)
Definition slot_char (c : ascii) : bool :=
  let n := N_of_ascii c in
  ((97 <=? n) && (n <=? 122))%N      (* a-z *)
  || ((48 <=? n) && (n <=? 57))%N    (* 0-9 *)
  || (n =? 95)%N                     (* _ *)
  || (n =? 38)%N                     (* & *)
  || (n =? 94)%N.                    (* ^ *)

(** The longest prefix made of characters satisfying [p]: what a greedy
    [[...]+] consumes. *)
Fixpoint span (p : ascii -> bool) (s : string) : string :=
  match s with
  | String c rest => if p c then String c (span p rest) else EmptyString
  | EmptyString => EmptyString
  end.

Fixpoint drop (n : nat) (s : string) : string :=
  match n, s with
  | O, _ => s
  | S n', String _ rest => drop n' rest
  | S _, EmptyString => EmptyString
  end.

(** [re.search(r"storage_([a-z0-9_&^]+)", s)], returning [m.group(1)]
    of the leftmost match, [None] when there is none. *)
Fixpoint search_storage (s : string) : option string :=
  let here :=
    if String.prefix "storage_" s then
      match span slot_char (drop 8 s) with
      | EmptyString => None
      | key => Some key
      end
    else None in
  match here with
  | Some key => Some key
  | None => match s with
            | EmptyString => None
            | String _ rest => search_storage rest
            end
  end.

End PyStr.

(** ** Data model: what the module reads from the execution engine *)

(** [mythril.analysis.ops.VarType]. *)
Inductive VarType := SYMBOLIC | CONCRETE.

#[global] Instance VarType_eq_dec : EqDecision VarType.
Proof. solve_decision. Defined.

(** [mythril.analysis.ops.Variable]: a value [val] tagged with its
    [type].  A concrete variable holds an [int]; a symbolic one holds an
    expression, of which the module only ever looks at the rendering
    [str(...)]. *)
Inductive Var :=
| Concrete (val : Z)
| Symbolic (text : string).

Definition var_type (v : Var) : VarType :=
  match v with
  | Concrete _ => CONCRETE
  | Symbolic _ => SYMBOLIC
  end.

(** [str(v)]: [Variable.__str__] is [str(self.val)]. *)
Definition str (v : Var) : string :=
  match v with
  | Concrete n => PyStr.of_int n
  | Symbolic t => t
  end.

(** Modelled from the spec: the enumeration [JumpType] is declared in
    [mythril.laser.ethereum.cfg], which is not among the sources.  The
    specification gives an edge type exactly two values, ordinary control
    flow and "crosses a transaction boundary"; the module names only the
    latter, [JumpType.Transaction]. *)
Inductive JumpType := IntraFlow | Transaction.

#[global] Instance JumpType_eq_dec : EqDecision JumpType.
Proof. solve_decision. Defined.

(** A [GlobalState], reduced to what the module reads from it:
    [get_current_instruction()["opcode"]] and [["address"]],
    [current_transaction.id], [environment.active_account.address],
    [environment.code.bytecode], and the two gas bounds of [mstate]. *)
Record GlobalState := {
  opcode : string;
  address : Z;
  current_transaction_id : Z;
  active_account_address : Z;
  bytecode : string;
  min_gas_used : Z;
  max_gas_used : Z;
}.

Record Node := {
  uid : Z;
  states : list GlobalState;
  contract_name : string;
  function_name : string;
}.

Record Edge := {
  node_from : Z;
  node_to : Z;
  edge_type : JumpType;
}.

(** [mythril.analysis.ops.Call]. *)
Record Call := {
  call_node : Node;
  call_state : GlobalState;
  call_state_index : Z;
  call_type : string;
  call_to : Var;
  call_gas : Var;
  call_value : Var;
}.

(** The statespace: [nodes] is a dictionary from uid to [Node], [edges]
    and [calls] are lists; [find_storage_write] is the engine's query,
    [None] when no function writes the slot. *)
Record StateSpace := {
  nodes : gmap Z Node;
  edges : list Edge;
  calls : list Call;
  find_storage_write : Z -> string -> option string;
}.

(** [mythril.analysis.report.Issue], with the keyword arguments the
    module passes. *)
Record Issue := {
  contract : string;
  issue_function_name : string;
  issue_address : Z;
  title : string;
  _type : string;
  description : string;
  issue_bytecode : string;
  swc_id : string;
  gas_used : Z * Z;
}.

(** The detector instance: the two attributes set by [__init__]. *)
Record ExternalCallModule := {
  max_search_depth : Z;
  calls_visited : list Z;
}.

(** Modelled from the spec: the constant [REENTRANCY] is declared in
    [mythril.analysis.swc_data], which is not among the sources.  The
    specification describes it as the fixed "reentrancy" classifier id.
    No property below depends on its value. *)
Definition REENTRANCY : string := "reentrancy".

(** [ExternalCallModule.__init__(max_search_depth=64)]. *)
Definition init (max_search_depth : Z) : ExternalCallModule :=
  {| max_search_depth := max_search_depth; calls_visited := [] |}.

(** The module-level singleton [detector = ExternalCallModule()]. *)
Definition detector : ExternalCallModule := init 64.

(** ** The store of list objects and the monad of the search *)

(** What can stop a computation.  [KeyError] and [IndexError] are the
    Python exceptions of a dictionary and of a list subscript.
    [OutOfFuel] and [BadRef] belong to the model only: the recursion of
    [search_children] is written with a fuel, which is shown never to
    run out, and a reference may fail to point into the store, which
    does not happen for the references the module makes. *)
Inductive error :=
| KeyError (key : Z)
| IndexError
| OutOfFuel
| BadRef.

Inductive outcome (A : Type) :=
| Ok (a : A)
| Raise (e : error).
Arguments Ok {A} a.
Arguments Raise {A} e.

(** A reference to a list object. *)
Definition loc := nat.

Record Store := {
  heap : list (list Z);   (* the list objects, by reference *)
  log : list Z;           (* uids passed to "SEARCHING NODE %d" *)
}.

Definition Py (A : Type) : Type := Store -> outcome (A * Store).

#[global] Instance Py_ret : MRet Py := fun A a st => Ok (a, st).
#[global] Instance Py_bind : MBind Py := fun A B f m st =>
  match m st with
  | Ok (a, st') => f a st'
  | Raise e => Raise e
  end.

Definition raise {A} (e : error) : Py A := fun _ => Raise e.

(** [[]]: a new, empty list object. *)
Definition list_new : Py loc := fun st =>
  Ok (length (heap st), {| heap := heap st ++ [[]]; log := log st |}).

(** The elements of the object behind [l]. *)
Definition list_read (l : loc) : Py (list Z) := fun st =>
  match heap st !! l with
  | Some xs => Ok (xs, st)
  | None => Raise BadRef
  end.

Definition list_write (l : loc) (xs : list Z) : Py unit := fun st =>
  match heap st !! l with
  | Some _ => Ok (tt, {| heap := <[l := xs]> (heap st); log := log st |})
  | None => Raise BadRef
  end.

(** [l.append(x)]. *)
Definition list_append (l : loc) (x : Z) : Py unit :=
  xs ← list_read l; list_write l (xs ++ [x]).

(** [l += r]: [list.__iadd__] extends the object behind [l] in place by
    the elements the object behind [r] holds at that moment, and leaves
    the name bound to the same object.  When [r] is [l] itself the list
    is doubled. *)
Definition list_iadd (l r : loc) : Py loc :=
  xs ← list_read l; ys ← list_read r; list_write l (xs ++ ys);; mret l.

(** [logging.debug("SEARCHING NODE %d", uid)]. *)
Definition log_debug (uid : Z) : Py unit := fun st =>
  Ok (tt, {| heap := heap st; log := log st ++ [uid] |}).

(** [for x in xs: body(x)]. *)
Fixpoint for_each {A} (xs : list A) (body : A -> Py unit) : Py unit :=
  match xs with
  | [] => mret tt
  | x :: rest => body x;; for_each rest body
  end.

(** [xs[j]] on a Python list: negative subscripts count from the end. *)
Definition getitem {A} (xs : list A) (j : Z) : option A :=
  if 0 <=? j then xs !! Z.to_nat j
  else if - Z.of_nat (length xs) <=? j then xs !! Z.to_nat (Z.of_nat (length xs) + j)
  else None.

Definition subscript {A} (xs : list A) (j : Z) : Py A :=
  match getitem xs j with
  | Some x => mret x
  | None => raise IndexError
  end.

(** [statespace.nodes[key]]. *)
Definition nodes_at (statespace : StateSpace) (key : Z) : Py Node :=
  match nodes statespace !! key with
  | Some n => mret n
  | None => raise (KeyError key)
  end.

(** ** [ExternalCallModule.search_children] *)

(** The loop over [statespace.edges] that fills [children]. *)
Fixpoint collect_children (statespace : StateSpace) (node : Node)
    (es : list Edge) (children : list Node) : Py (list Node) :=
  match es with
  | [] => mret children
  | edge :: rest =>
      if bool_decide (node_from edge = uid node)
         && negb (bool_decide (edge_type edge = Transaction))
      then child ← nodes_at statespace (node_to edge);
           collect_children statespace node rest (children ++ [child])
      else collect_children statespace node rest children
  end.

(** The body of the scan loop at subscript [j]. *)
Definition scan_state (node : Node) (transaction_id : Z) (results : loc)
    (j : Z) : Py unit :=
  s ← subscript (states node) j;
  if String.eqb (opcode s) "SSTORE"
     && bool_decide (current_transaction_id s = transaction_id)
  then list_append results (address s)
  else mret tt.

(** The method, with the recursion counted down by [fuel].  [results] is
    [None] for the default argument and a reference otherwise. *)
Fixpoint search_children_fuel (fuel : nat) (self : ExternalCallModule)
    (statespace : StateSpace) (node : Node) (transaction_id : Z)
    (start_index : Z) (depth : Z) (results : option loc) : Py loc :=
  match fuel with
  | O => raise OutOfFuel
  | S fuel' =>
      results ← match results with
                | None => list_new
                | Some l => mret l
                end;
      log_debug (uid node);;
      (if depth <? max_search_depth self then
         let n_states := Z.of_nat (length (states node)) in
         (if n_states >? start_index then
            for_each (seqZ start_index (n_states - start_index))
                     (scan_state node transaction_id results)
          else mret tt);;
         children ← collect_children statespace node (edges statespace) [];
         for_each children (fun node =>
           r ← search_children_fuel fuel' self statespace node
                 transaction_id 0 (depth + 1) (Some results);
           list_iadd results r;; mret tt)
       else mret tt);;
      mret results
  end.

(** The fuel one call needs: one unit for itself and one for each level
    of depth still open below [max_search_depth]. *)
Definition fuel_for (self : ExternalCallModule) (depth : Z) : nat :=
  S (Z.to_nat (max_search_depth self - depth)).

Definition search_children (self : ExternalCallModule)
    (statespace : StateSpace) (node : Node) (transaction_id : Z)
    (start_index : Z) (depth : Z) (results : option loc) : Py loc :=
  search_children_fuel (fuel_for self depth) self statespace node
    transaction_id start_index depth results.

(** ** [ExternalCallModule.execute] *)

(** The gate on gas and target.  In Python [A and B or C] is
    [(A and B) or C]; [call.gas.val] is only read when the gas is
    concrete. *)
Definition gas_target_filter (call : Call) : bool :=
  (bool_decide (var_type (call_to call) = SYMBOLIC)
   && match call_gas call with
      | Concrete val => val >? 2300
      | Symbolic _ => false
      end)
  || (bool_decide (var_type (call_gas call) = SYMBOLIC)
      && negb (PyStr.contains "2300" (str (call_gas call)))).

(** Truth value of what [find_storage_write] returns: [None] and the
    empty string are false. *)
Definition truthy (func : option string) : option string :=
  match func with
  | Some "" => None
  | other => other
  end.

(** The part of the description that depends on the target, and
    [user_supplied]. *)
Definition classify (statespace : StateSpace) (call : Call) : string * bool :=
  let description := "This contract executes a message call to " in
  let target := str (call_to call) in
  if PyStr.contains "calldata" target || PyStr.contains "caller" target then
    if PyStr.contains "calldata" target then
      (description +:+ "an address provided as a function argument. ", true)
    else
      (description +:+ "the address of the transaction sender. ", true)
  else
    match PyStr.search_storage (str (call_to call)) with
    | Some idx =>
        match truthy (find_storage_write statespace
                        (active_account_address (call_state call)) idx) with
        | Some func =>
            (description +:+ "an address found at storage slot " +:+ idx +:+ ". "
               +:+ "This storage slot can be written to by calling the function `"
               +:+ func +:+ "`. ", true)
        | None => (description, false)
        end
    | None => (description, false)
    end.

(** The call-level issue. *)
Definition call_issue (statespace : StateSpace) (call : Call) : Issue :=
  let state := call_state call in
  let '(description, user_supplied) := classify statespace call in
  if user_supplied then
    {| contract := contract_name (call_node call);
       issue_function_name := function_name (call_node call);
       issue_address := address state;
       title := "Message call to external contract";
       _type := "Warning";
       description := description +:+
         "Generally, it is not recommended to call user-supplied addresses using Solidity's call() construct. " +:+
         "Note that attackers might leverage reentrancy attacks to exploit race conditions or manipulate this contract's state.";
       issue_bytecode := bytecode state;
       swc_id := REENTRANCY;
       gas_used := (min_gas_used state, max_gas_used state) |}
  else
    {| contract := contract_name (call_node call);
       issue_function_name := function_name (call_node call);
       issue_address := address state;
       title := "Message call to external contract";
       _type := "Informational";
       description := description +:+
         "to another contract. Make sure that the called contract is trusted and does not execute user-supplied code.";
       issue_bytecode := bytecode state;
       swc_id := REENTRANCY;
       gas_used := (min_gas_used state, max_gas_used state) |}.

(** The issue built for one address the search returned. *)
Definition state_change_issue (call : Call) (address : Z) : Issue :=
  let state := call_state call in
  {| contract := contract_name (call_node call);
     issue_function_name := function_name (call_node call);
     issue_address := address;
     title := "State change after external call";
     _type := "Warning";
     description :=
       "The contract account state is changed after an external call. " +:+
       "Consider that the called contract could re-enter the function before this " +:+
       "state change takes place. This can lead to business logic vulnerabilities.";
     issue_bytecode := bytecode state;
     swc_id := REENTRANCY;
     gas_used := (min_gas_used state, max_gas_used state) |}.

Definition empty_store : Store := {| heap := []; log := [] |}.

(** The call [self.search_children(statespace, call.node, id,
    call.state_index + 1, depth=0, results=[])] of [execute], and the
    elements of the list it hands back.  The argument [[]] is a new list
    object. *)
Definition state_change_addresses (self : ExternalCallModule)
    (statespace : StateSpace) (call : Call) : Py (list Z) :=
  fresh ← list_new;
  r ← search_children self statespace (call_node call)
        (current_transaction_id (call_state call))
        (call_state_index call + 1) 0 (Some fresh);
  list_read r.

(** [self.calls_visited.append(address)]. *)
Definition visit (self : ExternalCallModule) (address : Z) : ExternalCallModule :=
  {| max_search_depth := max_search_depth self;
     calls_visited := calls_visited self ++ [address] |}.

(** One turn of the loop [for call in statespace.calls], from the issues
    gathered so far to the issues after it.  The detector instance is
    handed back in every case: an exception does not undo the
    [append] that came before it. *)
Definition execute_call (statespace : StateSpace) (call : Call)
    (self : ExternalCallModule) (issues : list Issue) (st : Store)
  : outcome (list Issue * Store) * ExternalCallModule :=
  let state := call_state call in
  let address := address state in
  if String.eqb (call_type call) "CALL" then
    if gas_target_filter call then
      let issues := issues ++ [call_issue statespace call] in
      if negb (bool_decide (address ∈ calls_visited self)) then
        let self := visit self address in
        match state_change_addresses self statespace call st with
        | Ok (addresses, st) =>
            (Ok (issues ++ map (state_change_issue call) addresses, st), self)
        | Raise e => (Raise e, self)
        end
      else (Ok (issues, st), self)
    else (Ok (issues, st), self)
  else (Ok (issues, st), self).

Fixpoint execute_loop (statespace : StateSpace) (todo : list Call)
    (self : ExternalCallModule) (issues : list Issue) (st : Store)
  : outcome (list Issue * Store) * ExternalCallModule :=
  match todo with
  | [] => (Ok (issues, st), self)
  | call :: rest =>
      match execute_call statespace call self issues st with
      | (Ok (issues, st), self) => execute_loop statespace rest self issues st
      | (Raise e, self) => (Raise e, self)
      end
  end.

(** [execute]: the issues it returns and the store it leaves, or the
    exception it lets through, and the detector instance as the call
    leaves it. *)
Definition execute (self : ExternalCallModule) (statespace : StateSpace)
    (st : Store) : outcome (list Issue * Store) * ExternalCallModule :=
  execute_loop statespace (calls statespace) self [] st.

(** ** What the search computes, on the elements of the accumulator

    The store disappears from the statements once the search is read as
    a function from the elements the accumulator holds on entry to the
    elements it holds on exit, together with the uids logged on the way.
    [search_acc] is that reading (it keeps the nodes rather than their
    uids); it is shown below that the method computes it in place, on
    the object it was given. *)

Definition sstore_in (transaction_id : Z) (s : GlobalState) : bool :=
  String.eqb (opcode s) "SSTORE"
  && bool_decide (current_transaction_id s = transaction_id).

Fixpoint scan_acc (node : Node) (transaction_id : Z) (js : list Z)
    (acc : list Z) : outcome (list Z) :=
  match js with
  | [] => Ok acc
  | j :: rest =>
      match getitem (states node) j with
      | Some s =>
          scan_acc node transaction_id rest
            (if sstore_in transaction_id s then acc ++ [address s] else acc)
      | None => Raise IndexError
      end
  end.

Fixpoint children_acc (statespace : StateSpace) (node : Node)
    (es : list Edge) (children : list Node) : outcome (list Node) :=
  match es with
  | [] => Ok children
  | edge :: rest =>
      if bool_decide (node_from edge = uid node)
         && negb (bool_decide (edge_type edge = Transaction))
      then match nodes statespace !! node_to edge with
           | Some child => children_acc statespace node rest (children ++ [child])
           | None => Raise (KeyError (node_to edge))
           end
      else children_acc statespace node rest children
  end.

(** The loop over the children: after each child the accumulator is
    extended by itself. *)
Fixpoint loop_acc (rec : Node -> list Z -> outcome (list Z * list Node))
    (children : list Node) (acc : list Z) : outcome (list Z * list Node) :=
  match children with
  | [] => Ok (acc, [])
  | child :: rest =>
      match rec child acc with
      | Ok (r, seen) =>
          match loop_acc rec rest (r ++ r) with
          | Ok (r', seen') => Ok (r', seen ++ seen')
          | Raise e => Raise e
          end
      | Raise e => Raise e
      end
  end.

Fixpoint search_acc (fuel : nat) (self : ExternalCallModule)
    (statespace : StateSpace) (node : Node) (transaction_id : Z)
    (start_index : Z) (depth : Z) (acc : list Z)
  : outcome (list Z * list Node) :=
  match fuel with
  | O => Raise OutOfFuel
  | S fuel' =>
      if depth <? max_search_depth self then
        let n_states := Z.of_nat (length (states node)) in
        match (if n_states >? start_index
               then scan_acc node transaction_id
                      (seqZ start_index (n_states - start_index)) acc
               else Ok acc) with
        | Raise e => Raise e
        | Ok acc1 =>
            match children_acc statespace node (edges statespace) [] with
            | Raise e => Raise e
            | Ok children =>
                match loop_acc (fun child a =>
                                  search_acc fuel' self statespace child
                                    transaction_id 0 (depth + 1) a)
                               children acc1 with
                | Ok (r, seen) => Ok (r, node :: seen)
                | Raise e => Raise e
                end
            end
        end
      else Ok (acc, [node])
  end.

(** The store in which the object behind [l] holds [r] and [seen] has
    been logged. *)
Definition updated (l : loc) (r : list Z) (seen : list Z) (st : Store) : Store :=
  {| heap := <[l := r]> (heap st); log := log st ++ seen |}.


(** Whether a computation stopped because the model's fuel ran out. *)
Definition is_out_of_fuel {A} (o : outcome A) : bool :=
  match o with
  | Raise OutOfFuel => true
  | _ => false
  end.

(** A computation that never runs out of fuel, whatever the store. *)
Definition fuelled {A} (m : Py A) : Prop :=
  forall st, is_out_of_fuel (m st) = false.

(** The addresses one scan of a sequence of states records: those of
    the storage writes of the transaction, in program order. *)
Definition sstore_addresses (transaction_id : Z) (sts : list GlobalState) : list Z :=
  map address (List.filter (sstore_in transaction_id) sts).

(** ** Paths the search may take *)

(** [followed statespace a c]: [c] is [a], or is reached from [a] along
    edges of the statespace none of which is a transaction boundary, each
    leading to the node the dictionary holds under its target. *)
Inductive followed (statespace : StateSpace) (a : Node) : Node -> Prop :=
| followed_start : followed statespace a a
| followed_step (b c : Node) (e : Edge) :
    followed statespace a b ->
    e ∈ edges statespace ->
    node_from e = uid b ->
    edge_type e <> Transaction ->
    nodes statespace !! node_to e = Some c ->
    followed statespace a c.

(** The statespace with every transaction-boundary edge taken out. *)
Definition without_transaction_edges (statespace : StateSpace) : StateSpace :=
  {| nodes := nodes statespace;
     edges := List.filter (fun e => negb (bool_decide (edge_type e = Transaction)))
                (edges statespace);
     calls := calls statespace;
     find_storage_write := find_storage_write statespace |}.

(** A reference that may be passed as [results]: none (the default),
    or one that points to a list object of the store. *)
Definition valid_results (results : option loc) (st : Store) : Prop :=
  match results with
  | None => True
  | Some l => is_Some (heap st !! l)
  end.

(** ** Statements that the code does not satisfy as they are written *)

(** Every child of an invocation below the depth bound is scanned. *)
Definition scans_every_child_below_bound : Prop :=
  forall self statespace node tx start_index depth l xs st e child s l' st',
    depth < max_search_depth self ->
    heap st !! l = Some xs ->
    e ∈ edges statespace ->
    node_from e = uid node ->
    edge_type e <> Transaction ->
    nodes statespace !! node_to e = Some child ->
    s ∈ states child ->
    opcode s = "SSTORE" ->
    current_transaction_id s = tx ->
    search_children self statespace node tx start_index depth (Some l) st
      = Ok (l', st') ->
    exists r, heap st' !! l' = Some r /\ address s ∈ r.

(** ** Text *)

(** [needle] occurs in [hay]. *)
Definition substring_of (needle hay : string) : Prop :=
  exists before after, hay = before +:+ needle +:+ after.

(** The two fixed endings of a call-level description. *)
Definition user_supplied_advice : string :=
  "Generally, it is not recommended to call user-supplied addresses using Solidity's call() construct. " +:+
  "Note that attackers might leverage reentrancy attacks to exploit race conditions or manipulate this contract's state.".

Definition trusted_advice : string :=
  "to another contract. Make sure that the called contract is trusted and does not execute user-supplied code.".

(** ** The loop of [execute] *)

(** A call the loop analyses: of kind ["CALL"] and let through by the
    filter. *)
Definition analysed (call : Call) : bool :=
  String.eqb (call_type call) "CALL" && gas_target_filter call.

Definition is_call_level (issue : Issue) : bool :=
  String.eqb (title issue) "Message call to external contract".

(** A second run of [execute] on the same instance returns what the
    first returned. *)
Definition runs_are_independent : Prop :=
  forall self statespace st issues1 st1 self1 issues2 st2 self2,
    execute self statespace st = (Ok (issues1, st1), self1) ->
    execute self1 statespace st1 = (Ok (issues2, st2), self2) ->
    issues2 = issues1.


(** Every character of [s] satisfies [p]. *)
Fixpoint all_chars (p : ascii -> bool) (s : string) : bool :=
  match s with
  | EmptyString => true
  | String c rest => p c && all_chars p rest
  end.

(** [s] begins with a character that satisfies [p]. *)
Definition starts_with (p : ascii -> bool) (s : string) : bool :=
  match s with
  | EmptyString => false
  | String c _ => p c
  end.

(** ** Concrete statespaces *)

Module Scenario.

Definition state_at (op : string) (addr : Z) : GlobalState :=
  {| opcode := op;
     address := addr;
     current_transaction_id := 1;
     active_account_address := 0xAFFE;
     bytecode := "6080";
     min_gas_used := 0;
     max_gas_used := 0 |}.

Definition node_of (uid : Z) (states : list GlobalState) : Node :=
  {| uid := uid; states := states;
     contract_name := "Wallet"; function_name := "withdraw(uint256)" |}.

(** The node of the call, an intermediate node, and a node with one
    storage write at address [0x42]. *)
Definition call_site : Node := node_of 0 [state_at "CALL" 0x10].
Definition middle : Node := node_of 1 [state_at "JUMPDEST" 0x20].
Definition writer : Node := node_of 2 [state_at "SSTORE" 0x42].

Definition edge (a b : Z) (t : JumpType) : Edge :=
  {| node_from := a; node_to := b; edge_type := t |}.

Definition call_with (to gas : Var) : Call :=
  {| call_node := call_site;
     call_state := state_at "CALL" 0x10;
     call_state_index := 0;
     call_type := "CALL";
     call_to := to;
     call_gas := gas;
     call_value := Concrete 0 |}.

(** A call to [calldata_arg_0] with 5000 gas. *)
Definition the_call : Call := call_with (Symbolic "calldata_arg_0") (Concrete 5000).

Definition no_writer : Z -> string -> option string := fun _ _ => None.

Definition all_nodes : gmap Z Node :=
  <[0 := call_site]> (<[1 := middle]> (<[2 := writer]> ∅)).

(** The call, followed two nodes later by the storage write: every
    node is reached along exactly one path. *)
Definition chain : StateSpace :=
  {| nodes := all_nodes;
     edges := [edge 0 1 IntraFlow; edge 1 2 IntraFlow];
     calls := [the_call];
     find_storage_write := no_writer |}.

(** The storage write one edge after the call. *)
Definition short : StateSpace :=
  {| nodes := all_nodes;
     edges := [edge 0 2 IntraFlow];
     calls := [the_call];
     find_storage_write := no_writer |}.

(** The storage write in a node that loops back to itself. *)
Definition cyclic : StateSpace :=
  {| nodes := all_nodes;
     edges := [edge 0 2 IntraFlow; edge 2 2 IntraFlow];
     calls := [the_call];
     find_storage_write := no_writer |}.

(** The storage write behind a transaction boundary. *)
Definition across : StateSpace :=
  {| nodes := all_nodes;
     edges := [edge 0 2 Transaction];
     calls := [the_call];
     find_storage_write := no_writer |}.

(** The call occurring twice. *)
Definition twice : StateSpace :=
  {| nodes := all_nodes;
     edges := [edge 0 2 IntraFlow];
     calls := [the_call; the_call];
     find_storage_write := no_writer |}.

(** A store with one empty list object, at reference 0. *)
Definition one_list : Store := {| heap := [[]]; log := [] |}.

End Scenario.

(** The statespace of the storage-slot example: the destination is read
    from slot 3, which the function [setOwner] writes. *)
Module OwnerScenario.

Definition lookup (account : Z) (slot : string) : option string :=
  if bool_decide (account = 0xAFFE) && String.eqb slot "3"
  then Some "setOwner" else None.

Definition slot_call : Call :=
  Scenario.call_with (Symbolic "storage_3") (Concrete 5000).

Definition with_writer : StateSpace :=
  {| nodes := Scenario.all_nodes; edges := []; calls := [slot_call];
     find_storage_write := lookup |}.

Definition without_writer : StateSpace :=
  {| nodes := Scenario.all_nodes; edges := []; calls := [slot_call];
     find_storage_write := Scenario.no_writer |}.

End OwnerScenario.

(** ** Definitions for the further properties *)

(** [hops statespace k a c]: [c] is reached from [a] along exactly [k]
    edges of the statespace, none of them a transaction boundary. *)
Inductive hops (statespace : StateSpace) : nat -> Node -> Node -> Prop :=
| hops_here (a : Node) : hops statespace 0 a a
| hops_next (k : nat) (a b c : Node) (e : Edge) :
    e ∈ edges statespace ->
    node_from e = uid a ->
    edge_type e <> Transaction ->
    nodes statespace !! node_to e = Some b ->
    hops statespace k b c ->
    hops statespace (S k) a c.


(** [a] is the address of a storage write of transaction [tx] in a node
    that can be reached from [start] without crossing a transaction
    boundary. *)
Definition write_after (statespace : StateSpace) (start : Node) (tx : Z)
    (a : Z) : Prop :=
  exists node s,
    followed statespace start node
    /\ s ∈ states node
    /\ opcode s = "SSTORE"
    /\ current_transaction_id s = tx
    /\ address s = a.

(** An issue of a call: its call-level issue, or the issue for the
    address of a storage write behind it. *)
Definition issue_of (statespace : StateSpace) (call : Call) (i : Issue) : Prop :=
  i = call_issue statespace call
  \/ exists a,
       i = state_change_issue call a
       /\ write_after statespace (call_node call)
            (current_transaction_id (call_state call)) a.

(** [a] is the address of a storage write of transaction [tx] in a node
    exactly [k] edges from [start], none of them a transaction
    boundary. *)
Definition write_at_distance (statespace : StateSpace) (start : Node)
    (tx : Z) (k : nat) (a : Z) : Prop :=
  exists target s,
    hops statespace k start target
    /\ s ∈ states target
    /\ opcode s = "SSTORE"
    /\ current_transaction_id s = tx
    /\ address s = a.

(** The statespace with another list of calls. *)
Definition with_calls (statespace : StateSpace) (cs : list Call) : StateSpace :=
  {| nodes := nodes statespace;
     edges := edges statespace;
     calls := cs;
     find_storage_write := find_storage_write statespace |}.

(** Characters of the rendering of an [int]. *)
Definition digit_or_minus (c : ascii) : bool :=
  let n := N_of_ascii c in
  ((48 <=? n) && (n <=? 57))%N || (n =? 45)%N.

Module Broken.

(** An edge from the node of the call to a uid the dictionary does not
    hold. *)
Definition dangling : StateSpace :=
  {| nodes := Scenario.all_nodes;
     edges := [Scenario.edge 0 2 IntraFlow; Scenario.edge 0 7 IntraFlow];
     calls := [Scenario.the_call];
     find_storage_write := Scenario.no_writer |}.

(** The call with a state index far before the start of its node. *)
Definition early_call : Call :=
  {| call_node := Scenario.call_site;
     call_state := Scenario.state_at "CALL" 0x10;
     call_state_index := -5;
     call_type := "CALL";
     call_to := Symbolic "calldata_arg_0";
     call_gas := Concrete 5000;
     call_value := Concrete 0 |}.

Definition early : StateSpace :=
  {| nodes := Scenario.all_nodes;
     edges := [];
     calls := [early_call];
     find_storage_write := Scenario.no_writer |}.

End Broken.

(** * Properties *)

(** ** The method computes [search_acc] in place *)

Lemma updated_lookup l r seen st xs :
  heap st !! l = Some xs -> heap (updated l r seen st) !! l = Some r.
Proof.
  intros H. simpl. apply list_lookup_insert_eq. by eapply lookup_lt_Some.
Qed.

Lemma updated_updated l r1 s1 r2 s2 st :
  updated l r2 s2 (updated l r1 s1 st) = updated l r2 (s1 ++ s2) st.
Proof.
  unfold updated; simpl. by rewrite list_insert_insert_eq, app_assoc.
Qed.

Lemma updated_same l xs st :
  heap st !! l = Some xs -> updated l xs [] st = st.
Proof.
  intros H. destruct st as [h lg]; unfold updated; simpl in *.
  by rewrite list_insert_id, app_nil_r.
Qed.

Lemma Py_bind_unfold {A B} (m : Py A) (f : A -> Py B) st :
  (m ≫= f) st = match m st with Ok (a, st') => f a st' | Raise e => Raise e end.
Proof. reflexivity. Qed.

Lemma Py_ret_unfold {A} (a : A) st : @mret Py _ A a st = Ok (a, st).
Proof. reflexivity. Qed.

Lemma list_read_acc l xs st :
  heap st !! l = Some xs -> list_read l st = Ok (xs, st).
Proof. intros H. unfold list_read. by rewrite H. Qed.

Lemma list_write_acc l xs ys st :
  heap st !! l = Some xs -> list_write l ys st = Ok (tt, updated l ys [] st).
Proof.
  intros H. unfold list_write, updated. by rewrite H, app_nil_r.
Qed.

Lemma list_append_acc l x xs st :
  heap st !! l = Some xs ->
  list_append l x st = Ok (tt, updated l (xs ++ [x]) [] st).
Proof.
  intros H. unfold list_append.
  rewrite Py_bind_unfold, (list_read_acc l xs) by done.
  by apply list_write_acc with xs.
Qed.

Lemma list_iadd_self l xs st :
  heap st !! l = Some xs ->
  list_iadd l l st = Ok (l, updated l (xs ++ xs) [] st).
Proof.
  intros H. unfold list_iadd.
  rewrite Py_bind_unfold, (list_read_acc l xs) by done.
  rewrite Py_bind_unfold, (list_read_acc l xs) by done.
  rewrite Py_bind_unfold, (list_write_acc l xs) by done.
  reflexivity.
Qed.

Lemma scan_state_acc node tx l j xs st :
  heap st !! l = Some xs ->
  scan_state node tx l j st =
    match getitem (states node) j with
    | Some s => Ok (tt, updated l (if sstore_in tx s then xs ++ [address s] else xs) [] st)
    | None => Raise IndexError
    end.
Proof.
  intros H. unfold scan_state, subscript. rewrite Py_bind_unfold.
  destruct (getitem (states node) j) as [s|]; [|done]. simpl.
  unfold sstore_in. destruct (_ && _).
  - by apply list_append_acc.
  - by rewrite updated_same.
Qed.

Lemma for_each_scan_acc node tx l js : forall xs st,
  heap st !! l = Some xs ->
  for_each js (scan_state node tx l) st =
    match scan_acc node tx js xs with
    | Ok r => Ok (tt, updated l r [] st)
    | Raise e => Raise e
    end.
Proof.
  induction js as [|j js IH]; intros xs st H; simpl.
  - by rewrite updated_same.
  - rewrite Py_bind_unfold, (scan_state_acc _ _ _ _ xs) by done.
    destruct (getitem (states node) j) as [s|]; [|done].
    rewrite (IH (if sstore_in tx s then xs ++ [address s] else xs))
      by (by eapply updated_lookup).
    destruct (scan_acc _ _ _ _); [|done].
    by rewrite updated_updated.
Qed.

Lemma collect_children_acc statespace node es : forall children st,
  collect_children statespace node es children st =
    match children_acc statespace node es children with
    | Ok cs => Ok (cs, st)
    | Raise e => Raise e
    end.
Proof.
  induction es as [|e es IH]; intros children st; simpl; [done|].
  destruct (_ && _); [|apply IH].
  rewrite Py_bind_unfold. unfold nodes_at.
  destruct (nodes statespace !! node_to e); [|done]. apply IH.
Qed.

Lemma for_each_children_acc (recm : Node -> Py loc)
    (recp : Node -> list Z -> outcome (list Z * list Node)) (l : loc) :
  (forall child xs st, heap st !! l = Some xs ->
     recm child st = match recp child xs with
                     | Ok (r, seen) => Ok (l, updated l r (map uid seen) st)
                     | Raise e => Raise e
                     end) ->
  forall children xs st, heap st !! l = Some xs ->
    for_each children (fun node => r ← recm node; list_iadd l r;; mret tt) st =
      match loop_acc recp children xs with
      | Ok (r, seen) => Ok (tt, updated l r (map uid seen) st)
      | Raise e => Raise e
      end.
Proof.
  intros Hrec. induction children as [|c cs IH]; intros xs st H; simpl.
  - by rewrite updated_same.
  - rewrite !Py_bind_unfold, (Hrec c xs) by done.
    destruct (recp c xs) as [[r seen]|]; [|done].
    rewrite Py_bind_unfold, (list_iadd_self l r) by (by eapply updated_lookup).
    simpl. rewrite (IH (r ++ r)) by (by eapply updated_lookup, updated_lookup).
    destruct (loop_acc recp cs (r ++ r)) as [[r' seen']|]; [|done].
    rewrite !updated_updated, map_app. reflexivity.
Qed.

Lemma log_debug_acc l xs u st :
  heap st !! l = Some xs -> log_debug u st = Ok (tt, updated l xs [u] st).
Proof.
  intros H. unfold log_debug, updated. by rewrite list_insert_id.
Qed.

(** The method works in place: it hands back the reference it was given,
    and the object behind it holds what [search_acc] computes from its
    elements on entry. *)
Lemma search_children_fuel_acc fuel :
  forall self statespace node tx start_index depth l xs st,
    heap st !! l = Some xs ->
    search_children_fuel fuel self statespace node tx start_index depth (Some l) st =
      match search_acc fuel self statespace node tx start_index depth xs with
      | Ok (r, seen) => Ok (l, updated l r (map uid seen) st)
      | Raise e => Raise e
      end.
Proof.
  induction fuel as [|fuel IH]; intros self ss node tx start depth l xs st H;
    [done|].
  cbn [search_children_fuel search_acc].
  rewrite Py_bind_unfold, Py_ret_unfold.
  rewrite Py_bind_unfold, (log_debug_acc l xs) by done.
  rewrite Py_bind_unfold.
  destruct (depth <? max_search_depth self); [|done].
  rewrite Py_bind_unfold.
  assert (Hl : heap (updated l xs [uid node] st) !! l = Some xs)
    by (by eapply updated_lookup).
  set (st1 := updated l xs [uid node] st) in *.
  set (n := Z.of_nat (length (states node))).
  assert (Hscan :
    (if n >? start then for_each (seqZ start (n - start)) (scan_state node tx l)
     else mret tt) st1 =
    match (if n >? start then scan_acc node tx (seqZ start (n - start)) xs
           else Ok xs) with
    | Ok r => Ok (tt, updated l r [] st1)
    | Raise e => Raise e
    end).
  { destruct (n >? start).
    - by apply for_each_scan_acc.
    - by rewrite updated_same. }
  rewrite Hscan. clear Hscan.
  destruct (if n >? start then _ else _) as [acc1|]; [|done].
  rewrite Py_bind_unfold, collect_children_acc.
  destruct (children_acc ss node (edges ss) []) as [cs|]; [|done].
  rewrite (for_each_children_acc _
             (fun child a => search_acc fuel self ss child tx 0 (depth + 1) a) l)
    with (xs := acc1).
  - destruct (loop_acc _ cs acc1) as [[r seen]|]; [|done].
    subst st1. rewrite !updated_updated. reflexivity.
  - intros child ys st' Hst'. by apply IH.
  - by eapply updated_lookup.
Qed.

(** ** Termination of the search *)

Lemma fuelled_ret {A} (a : A) : fuelled (mret a).
Proof. by intros st. Qed.

Lemma fuelled_bind {A B} (m : Py A) (f : A -> Py B) :
  fuelled m -> (forall a, fuelled (f a)) -> fuelled (m ≫= f).
Proof.
  intros Hm Hf st. rewrite Py_bind_unfold. specialize (Hm st).
  destruct (m st) as [[a st']|e]; [apply Hf | exact Hm].
Qed.

Lemma fuelled_for_each {A} (xs : list A) (body : A -> Py unit) :
  (forall x, fuelled (body x)) -> fuelled (for_each xs body).
Proof.
  intros Hb. induction xs as [|x xs IH]; simpl.
  - apply fuelled_ret.
  - apply fuelled_bind; [apply Hb | intros _; apply IH].
Qed.

Lemma fuelled_list_new : fuelled list_new.
Proof. by intros st. Qed.

Lemma fuelled_list_read l : fuelled (list_read l).
Proof. intros st. unfold list_read. by destruct (heap st !! l). Qed.

Lemma fuelled_list_write l xs : fuelled (list_write l xs).
Proof. intros st. unfold list_write. by destruct (heap st !! l). Qed.

Lemma fuelled_list_append l x : fuelled (list_append l x).
Proof.
  apply fuelled_bind; [apply fuelled_list_read | intros; apply fuelled_list_write].
Qed.

Lemma fuelled_list_iadd l r : fuelled (list_iadd l r).
Proof.
  repeat (apply fuelled_bind; [|intros]);
    auto using fuelled_list_read, fuelled_list_write, fuelled_ret.
Qed.

Lemma fuelled_log_debug u : fuelled (log_debug u).
Proof. by intros st. Qed.

Lemma fuelled_scan_state node tx l j : fuelled (scan_state node tx l j).
Proof.
  apply fuelled_bind.
  - intros st. unfold subscript. by destruct (getitem _ _).
  - intros s. destruct (_ && _); [apply fuelled_list_append | apply fuelled_ret].
Qed.

Lemma fuelled_collect_children statespace node es :
  forall children, fuelled (collect_children statespace node es children).
Proof.
  induction es as [|e es IH]; intros children; simpl.
  - apply fuelled_ret.
  - destruct (_ && _); [|apply IH].
    apply fuelled_bind; [|intros; apply IH].
    intros st. unfold nodes_at. by destruct (nodes statespace !! node_to e).
Qed.

(** The levels of depth still open bound the fuel a call needs. *)
Lemma search_children_fuel_fuelled fuel :
  forall self statespace node tx start_index depth results,
    (Z.to_nat (max_search_depth self - depth) < fuel)%nat ->
    fuelled (search_children_fuel fuel self statespace node tx start_index
               depth results).
Proof.
  induction fuel as [|fuel IH]; intros self ss node tx start depth results Hf;
    [lia|].
  cbn [search_children_fuel].
  apply fuelled_bind.
  { destruct results; [apply fuelled_ret | apply fuelled_list_new]. }
  intros l. apply fuelled_bind; [apply fuelled_log_debug | intros _].
  apply fuelled_bind; [|intros; apply fuelled_ret].
  destruct (depth <? max_search_depth self) eqn:Hd; [|apply fuelled_ret].
  apply Z.ltb_lt in Hd.
  apply fuelled_bind.
  { destruct (_ >? _); [|apply fuelled_ret].
    apply fuelled_for_each. intros j. apply fuelled_scan_state. }
  intros _. apply fuelled_bind; [apply fuelled_collect_children | intros cs].
  apply fuelled_for_each. intros child.
  apply fuelled_bind; [apply IH; lia | intros r].
  apply fuelled_bind; [apply fuelled_list_iadd | intros; apply fuelled_ret].
Qed.

Lemma Py_bind_ext {A B} (m : Py A) (f g : A -> Py B) st :
  (forall a st', f a st' = g a st') -> (m ≫= f) st = (m ≫= g) st.
Proof.
  intros H. rewrite !Py_bind_unfold. destruct (m st) as [[a st']|]; [apply H|done].
Qed.

Lemma for_each_ext {A} (xs : list A) (f g : A -> Py unit) :
  (forall x st, f x st = g x st) ->
  forall st, for_each xs f st = for_each xs g st.
Proof.
  intros H. induction xs as [|x xs IH]; intros st; simpl; [done|].
  rewrite !Py_bind_unfold, H. destruct (g x st) as [[[] st']|]; [apply IH|done].
Qed.

(** Fuel beyond what the depth bound asks for changes nothing. *)
Lemma search_children_fuel_more fuel :
  forall k self statespace node tx start_index depth results st,
    (Z.to_nat (max_search_depth self - depth) < fuel)%nat ->
    search_children_fuel (fuel + k) self statespace node tx start_index depth
      results st =
    search_children_fuel fuel self statespace node tx start_index depth
      results st.
Proof.
  induction fuel as [|fuel IH]; intros k self ss node tx start depth results st Hf;
    [lia|].
  cbn [search_children_fuel Nat.add].
  apply Py_bind_ext. intros l st1.
  apply Py_bind_ext. intros _ st2.
  destruct (depth <? max_search_depth self) eqn:Hd; [|done].
  apply Z.ltb_lt in Hd.
  apply (f_equal (fun m => match m with
                           | Ok (_, st') => Ok (l, st')
                           | Raise e => Raise e
                           end)).
  apply Py_bind_ext. intros _ st3.
  apply Py_bind_ext. intros cs st4.
  apply for_each_ext. intros child st5.
  rewrite !Py_bind_unfold, IH by lia. reflexivity.
Qed.

(** ** What the accumulator holds *)

Lemma scan_acc_prefix node tx js : forall acc r,
  scan_acc node tx js acc = Ok r -> acc `prefix_of` r.
Proof.
  induction js as [|j js IH]; intros acc r H; simpl in H.
  - by inversion H.
  - destruct (getitem (states node) j) as [s|]; [|done].
    apply IH in H. destruct (sstore_in tx s); [|done].
    etrans; [|exact H]. by apply prefix_app_r.
Qed.

(** From a subscript inside the list, the scan records the storage
    writes of the rest of the node. *)
Lemma scan_acc_from node tx (k : nat) : forall start acc,
  0 <= start ->
  (Z.to_nat start + k = length (states node))%nat ->
  scan_acc node tx (seqZ start (Z.of_nat k)) acc =
    Ok (acc ++ sstore_addresses tx (drop (Z.to_nat start) (states node))).
Proof.
  induction k as [|k IH]; intros start acc H0 Hlen.
  - simpl. rewrite drop_ge by lia. by rewrite app_nil_r.
  - rewrite seqZ_cons by lia. simpl.
    destruct (lookup_lt_is_Some_2 (states node) (Z.to_nat start)) as [s Hs];
      [lia|].
    unfold getitem. rewrite (proj2 (Z.leb_le 0 start)) by done. rewrite Hs.
    replace (Z.pred (Z.of_nat (S k))) with (Z.of_nat k) by lia.
    rewrite IH by lia.
    rewrite (drop_S _ _ _ Hs). unfold sstore_addresses. simpl.
    replace (Z.to_nat (Z.succ start)) with (S (Z.to_nat start)) by lia.
    destruct (sstore_in tx s); simpl; [by rewrite <- app_assoc | done].
Qed.

(** A scan from subscript 0 records the storage writes of the whole
    node, whether or not the node has states. *)
Lemma scan_acc_whole node tx acc :
  let n := Z.of_nat (length (states node)) in
  (if n >? 0 then scan_acc node tx (seqZ 0 (n - 0)) acc else Ok acc) =
    Ok (acc ++ sstore_addresses tx (states node)).
Proof.
  intros n. destruct (n >? 0) eqn:Hn.
  - rewrite Z.sub_0_r. subst n. by rewrite (scan_acc_from node tx _ 0 acc).
  - assert (states node = []) as ->.
    { destruct (states node); [done|]. subst n.
      rewrite Z.gtb_ltb in Hn. apply Z.ltb_ge in Hn. cbn [length] in Hn. lia. }
    by rewrite app_nil_r.
Qed.

Lemma loop_acc_prefix (rec : Node -> list Z -> outcome (list Z * list Node)) :
  (forall c a r s, rec c a = Ok (r, s) -> a `prefix_of` r) ->
  forall cs acc r s, loop_acc rec cs acc = Ok (r, s) -> acc `prefix_of` r.
Proof.
  intros Hrec. induction cs as [|c cs IH]; intros acc r s H; simpl in H.
  - by inversion H.
  - destruct (rec c acc) as [[r1 s1]|] eqn:Hc; [|done].
    destruct (loop_acc rec cs (r1 ++ r1)) as [[r2 s2]|] eqn:Hl; [|done].
    inversion H; subst. apply Hrec in Hc. apply IH in Hl.
    etrans; [exact Hc|]. etrans; [|exact Hl]. by apply prefix_app_r.
Qed.

(** The search only ever adds to the accumulator. *)
Lemma search_acc_prefix fuel :
  forall self statespace node tx start_index depth acc r s,
    search_acc fuel self statespace node tx start_index depth acc = Ok (r, s) ->
    acc `prefix_of` r.
Proof.
  induction fuel as [|fuel IH]; intros self ss node tx start depth acc r s H;
    [done|].
  cbn [search_acc] in H.
  destruct (depth <? max_search_depth self); [|by inversion H].
  destruct (if _ >? start then _ else _) as [acc1|] eqn:Hscan; [|done].
  destruct (children_acc ss node (edges ss) []) as [cs|]; [|done].
  destruct (loop_acc _ cs acc1) as [[r1 s1]|] eqn:Hl; [|done].
  inversion H; subst.
  apply loop_acc_prefix in Hl; [|intros c a r' s' Hc; by eapply IH].
  etrans; [|exact Hl].
  destruct (_ >? start); [by eapply scan_acc_prefix | by inversion Hscan].
Qed.

(** Every child of the loop is searched, from an accumulator that
    extends the one the loop started with; the elements its search
    leaves and the nodes it enters are kept to the end. *)
Lemma loop_acc_child (rec : Node -> list Z -> outcome (list Z * list Node)) :
  (forall c a r s, rec c a = Ok (r, s) -> a `prefix_of` r) ->
  forall cs acc r s c,
    loop_acc rec cs acc = Ok (r, s) -> c ∈ cs ->
    exists a r1 s1, rec c a = Ok (r1, s1) /\ acc `prefix_of` a
                    /\ r1 `prefix_of` r /\ s1 ⊆ s.
Proof.
  intros Hrec. induction cs as [|c0 cs IH]; intros acc r s c H Hin; simpl in H.
  - by apply elem_of_nil in Hin.
  - destruct (rec c0 acc) as [[r1 s1]|] eqn:Hc; [|done].
    destruct (loop_acc rec cs (r1 ++ r1)) as [[r2 s2]|] eqn:Hl; [|done].
    inversion H; subst. apply elem_of_cons in Hin as [->|Hin].
    + exists acc, r1, s1. split; [done|]. split; [done|]. split.
      * apply (loop_acc_prefix rec Hrec) in Hl.
        etrans; [|exact Hl]. by apply prefix_app_r.
      * intros x Hx. apply elem_of_app. by left.
    + destruct (IH _ _ _ _ Hl Hin) as (a & r' & s' & Ha & Hpre & Hr & Hs).
      exists a, r', s'. split; [done|]. split; [|split; [done|]].
      * etrans; [by eapply Hrec|]. etrans; [|exact Hpre]. by apply prefix_app_r.
      * intros x Hx. apply elem_of_app. right. by apply Hs.
Qed.

(** The children are the targets of the edges that leave the node and
    are not transaction boundaries. *)
Lemma children_acc_elem statespace node es : forall cs0 cs,
  children_acc statespace node es cs0 = Ok cs ->
  forall c, c ∈ cs <->
    c ∈ cs0 \/ exists e, e ∈ es /\ node_from e = uid node
                         /\ edge_type e <> Transaction
                         /\ nodes statespace !! node_to e = Some c.
Proof.
  induction es as [|e es IH]; intros cs0 cs H c; simpl in H.
  - inversion H; subst. split; [by left|]. intros [?|(e & He & _)]; [done|].
    by apply elem_of_nil in He.
  - destruct (bool_decide (node_from e = uid node)) eqn:Hfrom;
      destruct (bool_decide (edge_type e = Transaction)) eqn:Hty; simpl in H.
    + rewrite (IH _ _ H c). apply bool_decide_eq_true in Hty.
      split; intros [?|(e' & He' & Hrest)]; auto; right; exists e'.
      * split; [by right | done].
      * apply elem_of_cons in He' as [->|?]; [|done].
        by destruct Hrest as (_ & Hne & _).
    + destruct (nodes statespace !! node_to e) as [child|] eqn:Hchild; [|done].
      rewrite (IH _ _ H c), elem_of_app, list_elem_of_singleton.
      apply bool_decide_eq_true in Hfrom. apply bool_decide_eq_false in Hty.
      split.
      * intros [[? | ->] | (e' & He' & Hrest)]; auto; right.
        -- exists e. split; [by left | done].
        -- exists e'. split; [by right | done].
      * intros [?|(e' & He' & Hf & Ht & Hn)]; auto.
        apply elem_of_cons in He' as [->|?].
        -- left; right. congruence.
        -- right. by exists e'.
    + rewrite (IH _ _ H c). apply bool_decide_eq_false in Hfrom.
      split; intros [?|(e' & He' & Hrest)]; auto; right; exists e'.
      * split; [by right | done].
      * apply elem_of_cons in He' as [->|?]; [|done].
        by destruct Hrest as (Hf & _).
    + rewrite (IH _ _ H c). apply bool_decide_eq_false in Hfrom.
      split; intros [?|(e' & He' & Hrest)]; auto; right; exists e'.
      * split; [by right | done].
      * apply elem_of_cons in He' as [->|?]; [|done].
        by destruct Hrest as (Hf & _).
Qed.

(** ** Which nodes the search enters *)

Lemma followed_trans statespace a b c :
  followed statespace a b -> followed statespace b c -> followed statespace a c.
Proof.
  intros Hab Hbc. induction Hbc as [|b' c' e Hbb' IH He Hf Ht Hn]; [done|].
  by eapply followed_step.
Qed.

Lemma loop_acc_seen (rec : Node -> list Z -> outcome (list Z * list Node))
    (P : Node -> Prop) :
  forall cs acc r s,
    (forall c a r' s', c ∈ cs -> rec c a = Ok (r', s') -> Forall P s') ->
    loop_acc rec cs acc = Ok (r, s) -> Forall P s.
Proof.
  induction cs as [|c cs IH]; intros acc r s Hrec H; simpl in H.
  - inversion H; subst. constructor.
  - destruct (rec c acc) as [[r1 s1]|] eqn:Hc; [|done].
    destruct (loop_acc rec cs (r1 ++ r1)) as [[r2 s2]|] eqn:Hl; [|done].
    inversion H; subst. apply Forall_app. split.
    + eapply Hrec; [|exact Hc]. by left.
    + eapply IH; [|exact Hl]. intros c' a r' s' Hin. apply Hrec. by right.
Qed.

(** The first node a search enters is the node it is called on. *)
Lemma search_acc_enters fuel self statespace node tx start_index depth acc r s :
  search_acc fuel self statespace node tx start_index depth acc = Ok (r, s) ->
  exists rest, s = node :: rest.
Proof.
  destruct fuel as [|fuel]; [done|]. cbn [search_acc]. intros H.
  destruct (depth <? max_search_depth self); [|inversion H; by eexists].
  destruct (if _ >? start_index then _ else _); [|done].
  destruct (children_acc _ _ _ _); [|done].
  destruct (loop_acc _ _ _) as [[r1 s1]|]; [|done].
  inversion H; by eexists.
Qed.

(** Every node a search enters is reached from its node along edges that
    are not transaction boundaries. *)
Lemma search_acc_followed fuel :
  forall self statespace node tx start_index depth acc r s,
    search_acc fuel self statespace node tx start_index depth acc = Ok (r, s) ->
    Forall (followed statespace node) s.
Proof.
  induction fuel as [|fuel IH]; intros self ss node tx start depth acc r s H;
    [done|].
  cbn [search_acc] in H.
  destruct (depth <? max_search_depth self);
    [|inversion H; subst; repeat constructor].
  destruct (if _ >? start then _ else _) as [acc1|]; [|done].
  destruct (children_acc ss node (edges ss) []) as [cs|] eqn:Hcs; [|done].
  destruct (loop_acc _ cs acc1) as [[r1 s1]|] eqn:Hl; [|done].
  inversion H; subst. constructor; [constructor|].
  eapply loop_acc_seen; [|exact Hl].
  intros c a r' s' Hin Hc. cbv beta in Hc.
  apply (children_acc_elem _ _ _ _ _ Hcs) in Hin
    as [Hin|(e & He & Hf & Ht & Hn)]; [by apply elem_of_nil in Hin|].
  assert (Hstep : followed ss node c)
    by (eapply followed_step; [apply followed_start|done..]).
  apply IH in Hc. eapply Forall_impl; [exact Hc|].
  intros x Hx. by eapply followed_trans.
Qed.

(** Transaction-boundary edges have no part in the search: taking them
    out of the statespace changes nothing. *)
Lemma collect_children_without_transaction statespace node es :
  forall children st,
    collect_children (without_transaction_edges statespace) node
      (List.filter (fun e => negb (bool_decide (edge_type e = Transaction))) es)
      children st =
    collect_children statespace node es children st.
Proof.
  induction es as [|e es IH]; intros children st; [done|].
  cbn [List.filter collect_children].
  destruct (bool_decide (edge_type e = Transaction)) eqn:Ht; cbn [negb].
  - rewrite andb_false_r. apply IH.
  - cbn [collect_children]. rewrite Ht. cbn [negb].
    destruct (bool_decide (node_from e = uid node) && true); [|apply IH].
    apply Py_bind_ext. intros c st'. apply IH.
Qed.

Lemma search_children_fuel_without_transaction fuel :
  forall self statespace node tx start_index depth results st,
    search_children_fuel fuel self (without_transaction_edges statespace) node
      tx start_index depth results st =
    search_children_fuel fuel self statespace node tx start_index depth
      results st.
Proof.
  induction fuel as [|fuel IH]; intros self ss node tx start depth results st;
    [done|].
  cbn [search_children_fuel].
  apply Py_bind_ext. intros l st1.
  apply Py_bind_ext. intros _ st2.
  destruct (depth <? max_search_depth self); [|done].
  apply (f_equal (fun m => match m with
                           | Ok (_, st') => Ok (l, st')
                           | Raise e => Raise e
                           end)).
  apply Py_bind_ext. intros _ st3.
  rewrite !Py_bind_unfold.
  change (edges (without_transaction_edges ss)) with
    (List.filter (fun e => negb (bool_decide (edge_type e = Transaction)))
       (edges ss)).
  rewrite collect_children_without_transaction.
  destruct (collect_children ss node (edges ss) [] st3) as [[cs st4]|]; [|done].
  apply for_each_ext. intros child st5.
  rewrite !Py_bind_unfold, IH. reflexivity.
Qed.

(** ** From the store to the elements and back *)

(** What a call that returns has done to the store it ran in. *)
Lemma search_children_inv self statespace node tx start_index depth l xs st l' st' :
  heap st !! l = Some xs ->
  search_children self statespace node tx start_index depth (Some l) st
    = Ok (l', st') ->
  exists r seen,
    search_acc (fuel_for self depth) self statespace node tx start_index depth xs
      = Ok (r, seen)
    /\ l' = l /\ st' = updated l r (map uid seen) st /\ heap st' !! l = Some r.
Proof.
  intros Hl H. unfold search_children in H.
  rewrite (search_children_fuel_acc _ _ _ _ _ _ _ _ xs) in H by done.
  destruct (search_acc _ _ _ _ _ _ _ _) as [[r seen]|]; [|done].
  inversion H; subst. exists r, seen. repeat split; try done.
  by eapply updated_lookup.
Qed.

(** ** The search: depth bound, edges, termination, duplicated results *)

Lemma search_children_fuel_default fuel self statespace node tx start_index depth st :
  search_children_fuel fuel self statespace node tx start_index depth None st =
  search_children_fuel fuel self statespace node tx start_index depth
    (Some (length (heap st)))
    {| heap := heap st ++ [[]]; log := log st |}.
Proof. by destruct fuel. Qed.

(** What a call that returns has done, for either form of [results]:
    [xs] is what the accumulator held on entry. *)
Lemma search_children_returns self statespace node tx start_index depth results st l' st' :
  valid_results results st ->
  search_children self statespace node tx start_index depth results st
    = Ok (l', st') ->
  exists xs r seen,
    search_acc (fuel_for self depth) self statespace node tx start_index depth xs
      = Ok (r, seen)
    /\ match results with
       | Some l => l' = l /\ heap st !! l = Some xs
       | None => l' = length (heap st) /\ xs = []
       end
    /\ log st' = log st ++ map uid seen
    /\ heap st' !! l' = Some r.
Proof.
  intros Hv H. destruct results as [l|].
  - destruct Hv as [xs Hxs].
    destruct (search_children_inv _ _ _ _ _ _ _ _ _ _ _ Hxs H)
      as (r & seen & Hacc & -> & -> & Hr).
    by exists xs, r, seen.
  - unfold search_children in H. rewrite search_children_fuel_default in H.
    set (st0 := {| heap := heap st ++ [[]]; log := log st |}) in H.
    assert (Hxs : heap st0 !! length (heap st) = Some [])
      by (simpl; by rewrite lookup_app_r, Nat.sub_diag by lia).
    destruct (search_children_inv _ _ _ _ _ _ _ _ _ _ _ Hxs H)
      as (r & seen & Hacc & -> & -> & Hr).
    by exists [], r, seen.
Qed.

Lemma loop_acc_doubles (rec : Node -> list Z -> outcome (list Z * list Node)) :
  (forall c a r s, rec c a = Ok (r, s) -> a `prefix_of` r) ->
  forall cs acc r s,
    cs <> [] -> loop_acc rec cs acc = Ok (r, s) ->
    exists x, r = x ++ x /\ acc `prefix_of` x.
Proof.
  intros Hrec. induction cs as [|c cs IH]; intros acc r s Hne H; [done|].
  simpl in H.
  destruct (rec c acc) as [[r1 s1]|] eqn:Hc; [|done].
  destruct (loop_acc rec cs (r1 ++ r1)) as [[r2 s2]|] eqn:Hl; [|done].
  inversion H; subst. apply Hrec in Hc.
  destruct cs as [|c' cs].
  - simpl in Hl. inversion Hl; subst. by exists r1.
  - destruct (IH _ _ _ ltac:(done) Hl) as (x & -> & Hx).
    exists x. split; [done|].
    etrans; [exact Hc|]. etrans; [|exact Hx]. by apply prefix_app_r.
Qed.

(** On a graph with a cycle the search stops at the depth bound: with a
    bound of 3 the node that loops to itself is entered four times. *)
Example search_children_on_a_cycle :
  search_children (init 3) Scenario.cyclic Scenario.writer 1 0 0 (Some 0%nat)
    Scenario.one_list
  = Ok (0%nat, {| heap := [repeat 0x42 24]; log := [2; 2; 2; 2] |}).
Proof. vm_compute. reflexivity. Qed.

(** C9. The Post-Call State-Change Search terminates on every finite
    execution graph, cyclic or not, from every node, start index,
    transaction id, depth and accumulator: each recursive call is made at
    depth plus one and only below [max_search_depth], so the fuel
    [fuel_for] of the model is never used up, and any larger amount of
    fuel gives the same outcome (a result or a Python exception). *)
Theorem search_children_terminates :
  forall self statespace node transaction_id start_index depth results st,
    is_out_of_fuel
      (search_children self statespace node transaction_id start_index depth
         results st) = false
    /\ forall k,
         search_children_fuel (fuel_for self depth + k) self statespace node
           transaction_id start_index depth results st
         = search_children self statespace node transaction_id start_index
             depth results st.
Proof.
  intros self ss node tx start depth results st. split.
  - apply search_children_fuel_fuelled. unfold fuel_for. lia.
  - intros k. apply search_children_fuel_more. unfold fuel_for. lia.
Qed.

(** C8. The search never follows an edge of kind TransactionBoundary.
    Taking every such edge out of the statespace changes neither what a
    search returns nor the nodes it enters nor the exception it raises;
    and when a search returns, every node it has entered is its starting
    node or is reached from it along edges whose type is not the
    transaction-boundary type. *)
Theorem search_children_never_crosses_transaction_boundary :
  forall self statespace node transaction_id start_index depth results st,
    search_children self (without_transaction_edges statespace) node
      transaction_id start_index depth results st
    = search_children self statespace node transaction_id start_index depth
        results st
    /\ (forall l' st',
          valid_results results st ->
          search_children self statespace node transaction_id start_index
            depth results st = Ok (l', st') ->
          exists entered : list Node,
            log st' = log st ++ map uid entered
            /\ Forall (followed statespace node) entered).
Proof.
  intros self ss node tx start depth results st. split.
  - apply search_children_fuel_without_transaction.
  - intros l' st' Hv H.
    destruct (search_children_returns _ _ _ _ _ _ _ _ _ _ Hv H)
      as (xs & r & seen & Hacc & _ & Hlog & _).
    exists seen. split; [done|]. by eapply search_acc_followed.
Qed.

(** On [Scenario.across] the only edge is a transaction boundary: the
    search enters the node of the call and nothing else. *)
Lemma search_children_never_crosses_transaction_boundary_witness :
  valid_results (Some 0%nat) Scenario.one_list
  /\ search_children detector Scenario.across Scenario.call_site 1 1 0
       (Some 0%nat) Scenario.one_list
     = Ok (0%nat, {| heap := [[]]; log := [0] |})
  /\ exists entered : list Node,
       [0] = [] ++ map uid entered
       /\ Forall (followed Scenario.across Scenario.call_site) entered.
Proof.
  assert (Hv : valid_results (Some 0%nat) Scenario.one_list) by (by eexists).
  assert (Hrun : search_children detector Scenario.across Scenario.call_site 1 1 0
                   (Some 0%nat) Scenario.one_list
                 = Ok (0%nat, {| heap := [[]]; log := [0] |}))
    by (vm_compute; reflexivity).
  split; [exact Hv|]. split; [exact Hrun|].
  exact (proj2 (search_children_never_crosses_transaction_boundary
                  detector Scenario.across Scenario.call_site 1 1 0 (Some 0%nat)
                  Scenario.one_list) _ _ Hv Hrun).
Defined.

Lemma sstore_addresses_elem tx sts s :
  s ∈ sts -> opcode s = "SSTORE" -> current_transaction_id s = tx ->
  address s ∈ sstore_addresses tx sts.
Proof.
  intros Hin Hop Htx. unfold sstore_addresses.
  apply list_elem_of_fmap. exists s. split; [done|].
  apply list_elem_of_In, filter_In. split; [by apply list_elem_of_In|].
  unfold sstore_in. rewrite Hop. simpl. by apply bool_decide_eq_true.
Qed.

Lemma elem_of_prefix {A} (x : A) (l1 l2 : list A) :
  x ∈ l1 -> l1 `prefix_of` l2 -> x ∈ l2.
Proof. intros Hx [k ->]. apply elem_of_app. by left. Qed.

(** A search from subscript 0 below the depth bound leaves in the
    accumulator the storage writes of its whole node. *)
Lemma search_acc_scans_node fuel self statespace node tx depth acc r seen :
  depth < max_search_depth self ->
  search_acc (S fuel) self statespace node tx 0 depth acc = Ok (r, seen) ->
  (acc ++ sstore_addresses tx (states node)) `prefix_of` r.
Proof.
  intros Hd H. cbn [search_acc] in H.
  rewrite (proj2 (Z.ltb_lt _ _) Hd) in H.
  rewrite scan_acc_whole in H.
  destruct (children_acc _ _ _ _) as [cs|]; [|done].
  destruct (loop_acc _ cs _) as [[r1 s1]|] eqn:Hl; [|done].
  inversion H; subst.
  eapply loop_acc_prefix; [|exact Hl].
  intros c a r' s' Hc. cbv beta in Hc. by eapply search_acc_prefix.
Qed.

(** C3, the statement as written fails: with a depth bound of 1, the
    child of the starting node is entered at depth 1, which equals the
    bound, and its storage write at [0x42] is not recorded. *)
Lemma child_at_depth_bound_not_scanned : ~ scans_every_child_below_bound.
Proof.
  intros H.
  assert (Hd : 0 < max_search_depth (init 1)) by (simpl; lia).
  assert (Hxs : heap Scenario.one_list !! 0%nat = Some []) by reflexivity.
  assert (He : Scenario.edge 0 2 IntraFlow ∈ edges Scenario.short) by (by left).
  assert (Hs : Scenario.state_at "SSTORE" 0x42 ∈ states Scenario.writer)
    by (by left).
  assert (Hrun : search_children (init 1) Scenario.short Scenario.call_site 1 1 0
                   (Some 0%nat) Scenario.one_list
                 = Ok (0%nat, {| heap := [[]]; log := [0; 2] |}))
    by (vm_compute; reflexivity).
  destruct (H (init 1) Scenario.short Scenario.call_site 1 1 0 0%nat []
              Scenario.one_list (Scenario.edge 0 2 IntraFlow) Scenario.writer
              (Scenario.state_at "SSTORE" 0x42) 0%nat
              {| heap := [[]]; log := [0; 2] |}
              Hd Hxs He eq_refl ltac:(discriminate) eq_refl Hs eq_refl eq_refl
              Hrun)
    as (r & Hr & Hin).
  simpl in Hr. inversion Hr; subst. by apply elem_of_nil in Hin.
Qed.

(** C3, as the code has it.  An invocation at a depth below
    [max_search_depth] enters, at depth plus one, each child reached by
    an edge that is not a transaction boundary.  The child's entire state
    sequence is scanned, and the address of each of its storage writes in
    the call's transaction recorded, when depth plus one is still below
    [max_search_depth].  An invocation at a depth that has reached
    [max_search_depth] scans nothing and recurses into nothing: it hands
    the accumulator back as it got it. *)
Theorem search_children_scans_children_within_bound :
  forall self statespace node transaction_id start_index depth l xs st,
    heap st !! l = Some xs ->
    (max_search_depth self <= depth ->
     search_children self statespace node transaction_id start_index depth
       (Some l) st
     = Ok (l, {| heap := heap st; log := log st ++ [uid node] |}))
    /\ (depth < max_search_depth self ->
        forall l' st' e child,
          search_children self statespace node transaction_id start_index
            depth (Some l) st = Ok (l', st') ->
          e ∈ edges statespace ->
          node_from e = uid node ->
          edge_type e <> Transaction ->
          nodes statespace !! node_to e = Some child ->
          (exists entered, log st' = log st ++ entered /\ uid child ∈ entered)
          /\ (depth + 1 < max_search_depth self ->
              forall s,
                s ∈ states child ->
                opcode s = "SSTORE" ->
                current_transaction_id s = transaction_id ->
                exists r, heap st' !! l' = Some r /\ address s ∈ r)).
Proof.
  intros self ss node tx start depth l xs st Hxs. split.
  - intros Hd. unfold search_children, fuel_for.
    rewrite (search_children_fuel_acc _ _ _ _ _ _ _ _ xs) by done.
    cbn [search_acc]. rewrite (proj2 (Z.ltb_ge _ _) Hd).
    unfold updated. simpl. by rewrite list_insert_id.
  - intros Hd l' st' e child H He Hfrom Hty Hchild.
    destruct (search_children_inv _ _ _ _ _ _ _ _ _ _ _ Hxs H)
      as (r & seen & Hacc & -> & -> & Hr).
    unfold fuel_for in Hacc. cbn [search_acc] in Hacc.
    rewrite (proj2 (Z.ltb_lt _ _) Hd) in Hacc.
    destruct (if _ >? start then _ else _) as [acc1|]; [|done].
    destruct (children_acc ss node (edges ss) []) as [cs|] eqn:Hcs; [|done].
    destruct (loop_acc _ cs acc1) as [[r1 s1]|] eqn:Hl; [|done].
    inversion Hacc; subst r1 seen; clear Hacc.
    assert (Hin : child ∈ cs).
    { apply (children_acc_elem _ _ _ _ _ Hcs). right. by exists e. }
    eapply loop_acc_child in Hl as (a & r' & s' & Hc & _ & Hpre & Hsub);
      [|intros c a r' s' Hc; cbv beta in Hc; by eapply search_acc_prefix
       |exact Hin].
    cbv beta in Hc. split.
    + exists (map uid (node :: s1)). split; [done|].
      apply list_elem_of_fmap. exists child. split; [done|]. right.
      apply Hsub. destruct (search_acc_enters _ _ _ _ _ _ _ _ _ _ Hc) as [rest ->].
      by left.
    + intros Hd' s Hs Hop Htx. exists r. split; [done|].
      destruct (Z.to_nat (max_search_depth self - depth)) as [|fuel] eqn:Hfuel;
        [lia|].
      eapply elem_of_prefix; [|exact Hpre].
      eapply elem_of_prefix;
        [|by eapply (search_acc_scans_node fuel _ _ _ _ (depth + 1))].
      apply elem_of_app. right. by apply sstore_addresses_elem.
Qed.

(** On [Scenario.short] with the default bound of 64 the child of the
    node of the call is entered and its storage write at [0x42] recorded;
    at depth 64 the search hands back the accumulator as it is. *)
Lemma search_children_scans_children_within_bound_witness :
  search_children detector Scenario.short Scenario.call_site 1 1 64 (Some 0%nat)
    Scenario.one_list
  = Ok (0%nat, {| heap := [[]]; log := [0] |})
  /\ (exists entered, [0; 2] = [] ++ entered /\ 2 ∈ entered)
  /\ exists r, [[0x42; 0x42]] !! 0%nat = Some r /\ 0x42 ∈ r.
Proof.
  assert (Hxs : heap Scenario.one_list !! 0%nat = Some []) by reflexivity.
  destruct (search_children_scans_children_within_bound
              detector Scenario.short Scenario.call_site 1 1 64 0%nat []
              Scenario.one_list Hxs) as [Hstop _].
  destruct (search_children_scans_children_within_bound
              detector Scenario.short Scenario.call_site 1 1 0 0%nat []
              Scenario.one_list Hxs) as [_ Hgo].
  split; [apply Hstop; simpl; lia|].
  assert (Hd : 0 < max_search_depth detector) by (simpl; lia).
  assert (Hrun : search_children detector Scenario.short Scenario.call_site 1 1 0
                   (Some 0%nat) Scenario.one_list
                 = Ok (0%nat, {| heap := [[0x42; 0x42]]; log := [0; 2] |}))
    by (vm_compute; reflexivity).
  destruct (Hgo Hd 0%nat _ (Scenario.edge 0 2 IntraFlow) Scenario.writer Hrun)
    as [Hentered Hscan]; [by left | done | done | done |].
  split; [exact Hentered|].
  apply (Hscan ltac:(simpl; lia) (Scenario.state_at "SSTORE" 0x42));
    [by left | done | done].
Defined.

Lemma Py_then_ret {A B} (m : Py A) (b : B) st :
  match (m ≫= fun _ => mret b) st with
  | Ok (b', _) => b' = b
  | Raise _ => True
  end.
Proof. rewrite Py_bind_unfold. by destruct (m st) as [[a st']|]. Qed.

(** C10. There is an input in which every node is reached along exactly
    one path and yet an address is returned more than once: on
    [Scenario.chain], where the node of the call leads through one node to
    a node with a single storage write at [0x42], [search_children]
    returns [0x42] four times.  The reason is general.  The list a call
    returns is the very object it was passed as [results]; the caller
    extends that object by itself after each child, so that an
    invocation below the depth bound with at least one child returns a
    list of the form [x ++ x], [x] holding all that the accumulator held
    on entry. *)
Theorem search_children_duplicates_results :
  (search_children detector Scenario.chain Scenario.call_site 1 1 0 (Some 0%nat)
     Scenario.one_list
   = Ok (0%nat, {| heap := [[0x42; 0x42; 0x42; 0x42]]; log := [0; 1; 2] |})
   /\ (1 < count_occ Z.eq_dec ([0x42; 0x42; 0x42; 0x42])%Z 0x42%Z)%nat)
  /\ (forall self statespace node transaction_id start_index depth l st,
        match search_children self statespace node transaction_id start_index
                depth (Some l) st with
        | Ok (l', _) => l' = l
        | Raise _ => True
        end)
  /\ (forall self statespace node transaction_id start_index depth l xs st
             e child l' st',
        heap st !! l = Some xs ->
        depth < max_search_depth self ->
        e ∈ edges statespace ->
        node_from e = uid node ->
        edge_type e <> Transaction ->
        nodes statespace !! node_to e = Some child ->
        search_children self statespace node transaction_id start_index depth
          (Some l) st = Ok (l', st') ->
        exists x, heap st' !! l' = Some (x ++ x) /\ xs `prefix_of` x).
Proof.
  split; [split; [vm_compute; reflexivity | simpl; lia]|]. split.
  - intros self ss node tx start depth l st.
    unfold search_children, fuel_for. cbn [search_children_fuel].
    rewrite Py_bind_unfold, Py_ret_unfold, Py_bind_unfold.
    destruct (log_debug (uid node) st) as [[[] st1]|]; [|done].
    apply Py_then_ret.
  - intros self ss node tx start depth l xs st e child l' st'
      Hxs Hd He Hfrom Hty Hchild H.
    destruct (search_children_inv _ _ _ _ _ _ _ _ _ _ _ Hxs H)
      as (r & seen & Hacc & -> & -> & Hr).
    unfold fuel_for in Hacc. cbn [search_acc] in Hacc.
    rewrite (proj2 (Z.ltb_lt _ _) Hd) in Hacc.
    destruct (if _ >? start then _ else _) as [acc1|] eqn:Hscan; [|done].
    destruct (children_acc ss node (edges ss) []) as [cs|] eqn:Hcs; [|done].
    destruct (loop_acc _ cs acc1) as [[r1 s1]|] eqn:Hl; [|done].
    inversion Hacc; subst r1 seen; clear Hacc.
    assert (Hin : child ∈ cs).
    { apply (children_acc_elem _ _ _ _ _ Hcs). right. by exists e. }
    apply loop_acc_doubles in Hl as (x & -> & Hx).
    + exists x. split; [done|]. etrans; [|exact Hx].
      destruct (_ >? start); [by eapply scan_acc_prefix | by inversion Hscan].
    + intros c a r' s' Hc. cbv beta in Hc. by eapply search_acc_prefix.
    + intros ->. by apply elem_of_nil in Hin.
Qed.

(** The third part at [Scenario.chain]: the list returned is
    [[0x42; 0x42]] twice. *)
Lemma search_children_duplicates_results_witness :
  exists x, [[0x42; 0x42; 0x42; 0x42]] !! 0%nat = Some (x ++ x) /\ [] `prefix_of` x.
Proof.
  destruct search_children_duplicates_results as [[Hrun _] [_ Hdouble]].
  apply (Hdouble detector Scenario.chain Scenario.call_site 1 1 0 0%nat []
           Scenario.one_list (Scenario.edge 0 1 IntraFlow) Scenario.middle
           0%nat {| heap := [[0x42; 0x42; 0x42; 0x42]]; log := [0; 1; 2] |}).
  - reflexivity.
  - simpl; lia.
  - by left.
  - reflexivity.
  - discriminate.
  - reflexivity.
  - exact Hrun.
Defined.

(** ** Text *)

Lemma prefix_cons (a b : ascii) (n h : string) :
  String.prefix (String a n) (String b h)
  = if Ascii.ascii_dec a b then String.prefix n h else false.
Proof. reflexivity. Qed.

Lemma prefix_spec (n h : string) :
  String.prefix n h = true <-> exists after, h = n +:+ after.
Proof.
  revert h. induction n as [|c n IH]; intros h.
  - split; [intros _; by exists h | by destruct h].
  - destruct h as [|c' h]; [split; [done | intros [? ?]; done]|].
    rewrite prefix_cons.
    destruct (Ascii.ascii_dec c c') as [->|Hne].
    + rewrite IH. split; intros [after H]; exists after.
      * rewrite H. reflexivity.
      * change (String c' h = String c' (n +:+ after)) in H. by inversion H.
    + split; [done|]. intros [after H].
      change (String c' h = String c (n +:+ after)) in H. by inversion H.
Qed.

(** [PyStr.contains] decides occurrence. *)
Lemma contains_unfold (n h : string) :
  PyStr.contains n h =
    if String.prefix n h then true
    else match h with
         | EmptyString => false
         | String _ rest => PyStr.contains n rest
         end.
Proof. by destruct h. Qed.

Lemma contains_spec (n h : string) :
  PyStr.contains n h = true <-> substring_of n h.
Proof.
  split.
  - induction h as [|c h IH]; rewrite contains_unfold.
    + destruct (String.prefix n "") eqn:Hp; [|done]. intros _.
      apply prefix_spec in Hp as [after ->]. by exists "", after.
    + destruct (String.prefix n (String c h)) eqn:Hp.
      * intros _. apply prefix_spec in Hp as [after Hp]. by exists "", after.
      * intros H. destruct (IH H) as (before & after & ->).
        by exists (String c before), after.
  - intros (before & after & ->). induction before as [|c before IH].
    + rewrite contains_unfold.
      assert (Hp : String.prefix n (n +:+ after) = true)
        by (apply prefix_spec; by eexists).
      change ("" +:+ n +:+ after) with (n +:+ after). by rewrite Hp.
    + change (String c before +:+ n +:+ after)
        with (String c (before +:+ n +:+ after)).
      rewrite contains_unfold, IH. by destruct (String.prefix _ _).
Qed.

Lemma contains_false_spec (n h : string) :
  PyStr.contains n h = false <-> ~ substring_of n h.
Proof.
  rewrite <- contains_spec. by destruct (PyStr.contains n h).
Qed.

(** ** The storage-slot pattern *)

Lemma span_all p s : all_chars p (PyStr.span p s) = true.
Proof.
  induction s as [|c s IH]; simpl; [done|].
  destruct (p c) eqn:Hc; simpl; [by rewrite Hc | done].
Qed.

Lemma span_rest p s :
  exists rest, s = PyStr.span p s +:+ rest /\ starts_with p rest = false.
Proof.
  induction s as [|c s (rest & IH & Hrest)].
  - by exists "".
  - cbn [PyStr.span]. destruct (p c) eqn:Hc.
    + exists rest. split; [|done].
      change (String c s = String c (PyStr.span p s +:+ rest)).
      by rewrite <- IH.
    + exists (String c s). split; [done|]. simpl. exact Hc.
Qed.

Lemma search_storage_unfold s :
  PyStr.search_storage s =
    match (if String.prefix "storage_" s then
             match PyStr.span PyStr.slot_char (PyStr.drop 8 s) with
             | EmptyString => None
             | key => Some key
             end
           else None) with
    | Some key => Some key
    | None => match s with
              | EmptyString => None
              | String _ rest => PyStr.search_storage rest
              end
    end.
Proof. by destruct s. Qed.

(** What [PyStr.search_storage] returns is a group of the pattern: a
    non-empty run of characters of the class that follows an occurrence
    of "storage_" and is not followed by a character of the class. *)
Lemma search_storage_sound s key :
  PyStr.search_storage s = Some key ->
  exists before after,
    s = before +:+ "storage_" +:+ key +:+ after
    /\ key <> ""
    /\ all_chars PyStr.slot_char key = true
    /\ starts_with PyStr.slot_char after = false.
Proof.
  induction s as [|c s IH]; rewrite search_storage_unfold.
  - done.
  - destruct (String.prefix "storage_" (String c s)) eqn:Hp.
    + apply prefix_spec in Hp as [tail Hp]. rewrite Hp.
      change (PyStr.drop 8 ("storage_" +:+ tail)) with tail.
      destruct (span_rest PyStr.slot_char tail) as (rest & Htail & Hrest).
      pose proof (span_all PyStr.slot_char tail) as Hall.
      destruct (PyStr.span PyStr.slot_char tail) as [|k ks] eqn:Hspan.
      * rewrite <- Hp. intros H. destruct (IH H) as (b & a & -> & Hrest').
        by exists (String c b), a.
      * intros H. inversion H; subst key.
        exists "", rest. split; [by rewrite Htail at 1|]. by split.
    + intros H. destruct (IH H) as (b & a & -> & Hrest').
      by exists (String c b), a.
Qed.

(** When [PyStr.search_storage] finds nothing, "storage_" is nowhere
    followed by a character of the class. *)
Lemma search_storage_none s :
  PyStr.search_storage s = None ->
  forall before c after,
    s = before +:+ "storage_" +:+ String c after ->
    PyStr.slot_char c = false.
Proof.
  induction s as [|c0 s IH]; rewrite search_storage_unfold;
    intros H before c after Hs.
  - by destruct before.
  - destruct before as [|b before].
    + assert (Hp : String.prefix "storage_" (String c0 s) = true)
        by (apply prefix_spec; by eexists).
      rewrite Hp in H. rewrite Hs in H.
      change (PyStr.drop 8 ("" +:+ "storage_" +:+ String c after))
        with (String c after) in H.
      simpl in H. by destruct (PyStr.slot_char c).
    + change (String c0 s = String b (before +:+ "storage_" +:+ String c after))
        in Hs.
      inversion Hs; subst. eapply IH; [|done].
      destruct (if String.prefix _ _ then _ else _); done.
Qed.

Example search_storage_in_expression :
  PyStr.search_storage "Extract(159, 0, storage_3)" = Some "3"
  /\ PyStr.search_storage "storage_keccac_1461501637330902918203684832716283019655932542975&" = Some "keccac_1461501637330902918203684832716283019655932542975&"
  /\ PyStr.search_storage "storage_" = None
  /\ PyStr.search_storage "storage_ storage_a1" = Some "a1".
Proof. by repeat split. Qed.

(** ** The filter *)

Lemma gas_target_filter_spec (call : Call) :
  gas_target_filter call = true <->
    (var_type (call_to call) = SYMBOLIC
     /\ exists val, call_gas call = Concrete val /\ 2300 < val)
    \/ (exists text, call_gas call = Symbolic text /\ ~ substring_of "2300" text).
Proof.
  unfold gas_target_filter.
  destruct (call_gas call) as [val|text]; simpl.
  - rewrite orb_false_r, andb_true_iff, bool_decide_eq_true, Z.gtb_ltb, Z.ltb_lt.
    split.
    + intros [Hto Hgt]. left. split; [done|]. by exists val.
    + intros [[Hto (val' & Heq & Hgt)]|(text & Heq & _)]; [|done].
      by inversion Heq; subst.
  - rewrite andb_false_r. simpl. rewrite negb_true_iff, contains_false_spec.
    split.
    + intros H. right. by exists text.
    + intros [[_ (val & Heq & _)]|(text' & Heq & H)]; [done|].
      by inversion Heq; subst.
Qed.

(** What one turn of the loop does to the issues: an analysed call adds
    its call-level issue, then one issue for each address its search
    returns, if it searches; any other call adds nothing. *)
Lemma execute_call_issues statespace call self issues st :
  match execute_call statespace call self issues st with
  | (Ok (issues', _), _) =>
      if analysed call
      then exists addresses,
             issues' = issues ++ call_issue statespace call
                                   :: map (state_change_issue call) addresses
      else issues' = issues
  | (Raise _, _) => analysed call = true
  end.
Proof.
  unfold execute_call, analysed.
  destruct (String.eqb (call_type call) "CALL"); [|done]. simpl.
  destruct (gas_target_filter call); [|done].
  destruct (negb _).
  - destruct (state_change_addresses _ _ _ st) as [[addresses st']|]; [|done].
    exists addresses. by rewrite <- app_assoc.
  - by exists [].
Qed.

(** C2. A call of kind ["CALL"] is let through by the filter if and only
    if (a) its destination is symbolic and its gas is concrete and
    greater than 2300, or (b) its gas is symbolic and its text does not
    contain "2300".  When it is let through, its call-level issue is
    built and added to the issues; when it is not, the turn of the loop
    adds nothing.  In particular a symbolic destination with concrete gas
    of at most 2300 is not let through, and a concrete destination with
    symbolic gas whose text lacks "2300" is. *)
Theorem gas_target_filter_rule :
  forall statespace call self issues st,
    call_type call = "CALL" ->
    (gas_target_filter call = true <->
       (var_type (call_to call) = SYMBOLIC
        /\ exists val, call_gas call = Concrete val /\ 2300 < val)
       \/ (exists text, call_gas call = Symbolic text
                        /\ ~ substring_of "2300" text))
    /\ match execute_call statespace call self issues st with
       | (Ok (issues', _), _) =>
           if gas_target_filter call
           then exists more,
                  issues' = issues ++ call_issue statespace call :: more
           else issues' = issues
       | (Raise _, _) => gas_target_filter call = true
       end
    /\ (forall text val,
          call_to call = Symbolic text -> call_gas call = Concrete val ->
          val <= 2300 -> gas_target_filter call = false)
    /\ (forall val text,
          call_to call = Concrete val -> call_gas call = Symbolic text ->
          ~ substring_of "2300" text -> gas_target_filter call = true).
Proof.
  intros ss call self issues st Hkind. split; [apply gas_target_filter_spec|].
  split; [|split].
  - pose proof (execute_call_issues ss call self issues st) as H.
    unfold analysed in H. rewrite Hkind in H. simpl in H.
    destruct (execute_call ss call self issues st)
      as [[[issues' st']|e] self']; [|done].
    destruct (gas_target_filter call); [|done].
    destruct H as [addresses ->]. by eexists.
  - intros text val Hto Hgas Hle.
    destruct (gas_target_filter call) eqn:Hf; [|done].
    apply gas_target_filter_spec in Hf
      as [[_ (val' & Heq & Hgt)]|(text' & Heq & _)]; [|congruence].
    rewrite Hgas in Heq. inversion Heq; subst. lia.
  - intros val text Hto Hgas Hno. apply gas_target_filter_spec. right.
    by exists text.
Qed.

(** The call of [Scenario.chain], to [calldata_arg_0] with 5000 gas, is
    let through under (a). *)
Lemma gas_target_filter_rule_witness :
  call_type Scenario.the_call = "CALL"
  /\ gas_target_filter Scenario.the_call = true
  /\ var_type (call_to Scenario.the_call) = SYMBOLIC
  /\ 2300 < 5000.
Proof.
  split; [reflexivity|].
  destruct (gas_target_filter_rule Scenario.chain Scenario.the_call detector []
              empty_store eq_refl) as [Hiff _].
  assert (Ha : var_type (call_to Scenario.the_call) = SYMBOLIC
               /\ exists val, call_gas Scenario.the_call = Concrete val
                              /\ 2300 < val).
  { split; [reflexivity|]. exists 5000. split; [reflexivity | lia]. }
  split; [apply Hiff; by left|]. split; [reflexivity | lia].
Defined.

(** ** The classification of the target *)

Lemma classify_argument statespace call :
  PyStr.contains "calldata" (str (call_to call)) = true ->
  classify statespace call =
    ("This contract executes a message call to an address provided as a function argument. ",
     true).
Proof. unfold classify. by intros ->. Qed.

Lemma classify_sender statespace call :
  PyStr.contains "calldata" (str (call_to call)) = false ->
  PyStr.contains "caller" (str (call_to call)) = true ->
  classify statespace call =
    ("This contract executes a message call to the address of the transaction sender. ",
     true).
Proof. unfold classify. by intros -> ->. Qed.

Lemma classify_storage statespace call idx func :
  PyStr.contains "calldata" (str (call_to call)) = false ->
  PyStr.contains "caller" (str (call_to call)) = false ->
  PyStr.search_storage (str (call_to call)) = Some idx ->
  truthy (find_storage_write statespace
            (active_account_address (call_state call)) idx) = Some func ->
  classify statespace call =
    ("This contract executes a message call to "
       +:+ "an address found at storage slot " +:+ idx +:+ ". "
       +:+ "This storage slot can be written to by calling the function `"
       +:+ func +:+ "`. ",
     true).
Proof. unfold classify. by intros -> -> -> ->. Qed.

Lemma classify_trusted statespace call :
  PyStr.contains "calldata" (str (call_to call)) = false ->
  PyStr.contains "caller" (str (call_to call)) = false ->
  (forall idx,
     PyStr.search_storage (str (call_to call)) = Some idx ->
     truthy (find_storage_write statespace
               (active_account_address (call_state call)) idx) = None) ->
  classify statespace call =
    ("This contract executes a message call to ", false).
Proof.
  unfold classify. intros -> -> H. simpl.
  destruct (PyStr.search_storage (str (call_to call))) as [idx|]; [|done].
  by rewrite (H idx).
Qed.

Lemma call_issue_title statespace call :
  title (call_issue statespace call) = "Message call to external contract".
Proof.
  unfold call_issue. by destruct (classify statespace call) as [d []].
Qed.

Lemma call_issue_user_supplied statespace call d :
  classify statespace call = (d, true) ->
  _type (call_issue statespace call) = "Warning"
  /\ description (call_issue statespace call) = d +:+ user_supplied_advice.
Proof. unfold call_issue. by intros ->. Qed.

Lemma call_issue_trusted statespace call d :
  classify statespace call = (d, false) ->
  _type (call_issue statespace call) = "Informational"
  /\ description (call_issue statespace call) = d +:+ trusted_advice.
Proof. unfold call_issue. by intros ->. Qed.

Lemma state_change_issue_title call a :
  title (state_change_issue call a) = "State change after external call".
Proof. reflexivity. Qed.

(** C6. The classification of a flagged call is first match wins.  A
    destination text that contains "calldata" gives the argument-supplied
    description, whether or not it also contains "caller"; otherwise one
    that contains "caller" gives the sender-supplied description;
    otherwise a storage slot with a writing function gives the third
    classification.  These three have severity Warning; every other
    destination has severity Informational.  In each case the turn of
    the loop adds exactly one call-level issue: the issues that follow it
    carry another title. *)
Theorem call_issue_first_match_wins :
  forall statespace call self issues st,
    call_type call = "CALL" ->
    gas_target_filter call = true ->
    let target := str (call_to call) in
    let issue := call_issue statespace call in
    let lookup idx :=
      truthy (find_storage_write statespace
                (active_account_address (call_state call)) idx) in
    (substring_of "calldata" target ->
     _type issue = "Warning"
     /\ description issue =
          "This contract executes a message call to an address provided as a function argument. "
            +:+ user_supplied_advice)
    /\ (~ substring_of "calldata" target -> substring_of "caller" target ->
        _type issue = "Warning"
        /\ description issue =
             "This contract executes a message call to the address of the transaction sender. "
               +:+ user_supplied_advice)
    /\ (~ substring_of "calldata" target -> ~ substring_of "caller" target ->
        forall idx func,
          PyStr.search_storage target = Some idx -> lookup idx = Some func ->
          _type issue = "Warning")
    /\ (~ substring_of "calldata" target -> ~ substring_of "caller" target ->
        (forall idx, PyStr.search_storage target = Some idx -> lookup idx = None) ->
        _type issue = "Informational"
        /\ description issue =
             "This contract executes a message call to " +:+ trusted_advice)
    /\ title issue = "Message call to external contract"
    /\ match execute_call statespace call self issues st with
       | (Ok (issues', _), _) =>
           exists addresses,
             issues' = issues ++ issue :: map (state_change_issue call) addresses
             /\ Forall (fun i => title i <> title issue)
                  (map (state_change_issue call) addresses)
       | (Raise _, _) => True
       end.
Proof.
  intros ss call self issues st Hkind Hflag target issue lookup.
  split; [|split; [|split; [|split; [|split]]]].
  - intros Ha. apply contains_spec in Ha.
    by apply call_issue_user_supplied, classify_argument.
  - intros Ha Hs. apply contains_false_spec in Ha. apply contains_spec in Hs.
    by apply call_issue_user_supplied, classify_sender.
  - intros Ha Hs idx func Hidx Hfunc.
    apply contains_false_spec in Ha. apply contains_false_spec in Hs.
    by eapply call_issue_user_supplied, classify_storage.
  - intros Ha Hs Hnone.
    apply contains_false_spec in Ha. apply contains_false_spec in Hs.
    by apply call_issue_trusted, classify_trusted.
  - apply call_issue_title.
  - pose proof (execute_call_issues ss call self issues st) as H.
    unfold analysed in H. rewrite Hkind, Hflag in H. simpl in H.
    destruct (execute_call ss call self issues st)
      as [[[issues' st']|e] self']; [|done].
    destruct H as [addresses ->]. exists addresses. split; [done|].
    apply Forall_forall. intros i Hi.
    apply list_elem_of_fmap in Hi as (a & -> & _).
    subst issue. by rewrite call_issue_title.
Qed.

(** The call of [Scenario.chain]: its destination [calldata_arg_0] is
    argument-supplied. *)
Lemma call_issue_first_match_wins_witness :
  call_type Scenario.the_call = "CALL"
  /\ gas_target_filter Scenario.the_call = true
  /\ substring_of "calldata" (str (call_to Scenario.the_call))
  /\ _type (call_issue Scenario.chain Scenario.the_call) = "Warning"
  /\ description (call_issue Scenario.chain Scenario.the_call) =
       "This contract executes a message call to an address provided as a function argument. "
         +:+ user_supplied_advice.
Proof.
  assert (Hsub : substring_of "calldata" (str (call_to Scenario.the_call)))
    by (by exists "", "_arg_0").
  split; [reflexivity|]. split; [reflexivity|]. split; [exact Hsub|].
  exact (proj1 (call_issue_first_match_wins Scenario.chain Scenario.the_call
                  detector [] empty_store eq_refl eq_refl) Hsub).
Defined.

(** C7. For a destination text with neither marker that matches the
    storage-slot pattern with key "3": when the lookup, asked with the
    active account address and the key, reports the writer [setOwner],
    the issue has severity Warning and its description contains both "3"
    and "setOwner"; when the lookup reports no writer, the classification
    falls through to fixed/trusted, with severity Informational. *)
Theorem call_issue_storage_slot :
  forall statespace call,
    let target := str (call_to call) in
    let issue := call_issue statespace call in
    let account := active_account_address (call_state call) in
    ~ substring_of "calldata" target ->
    ~ substring_of "caller" target ->
    PyStr.search_storage target = Some "3" ->
    (find_storage_write statespace account "3" = Some "setOwner" ->
     _type issue = "Warning"
     /\ substring_of "3" (description issue)
     /\ substring_of "setOwner" (description issue)
     /\ description issue =
          "This contract executes a message call to an address found at storage slot 3. This storage slot can be written to by calling the function `setOwner`. "
            +:+ user_supplied_advice)
    /\ (find_storage_write statespace account "3" = None ->
        _type issue = "Informational"
        /\ description issue =
             "This contract executes a message call to " +:+ trusted_advice).
Proof.
  intros ss call target issue account. subst target issue account.
  intros Ha Hs Hslot.
  apply contains_false_spec in Ha. apply contains_false_spec in Hs. split.
  - intros Hw.
    assert (Hl : truthy (find_storage_write ss
                           (active_account_address (call_state call)) "3")
                 = Some "setOwner") by (by rewrite Hw).
    destruct (call_issue_user_supplied ss call _
                (classify_storage ss call "3" "setOwner" Ha Hs Hslot Hl))
      as [Hty Hd].
    rewrite Hd. split; [done|]. split; [|split; [|done]].
    + by exists "This contract executes a message call to an address found at storage slot ",
        (". This storage slot can be written to by calling the function `setOwner`. "
           +:+ user_supplied_advice).
    + by exists "This contract executes a message call to an address found at storage slot 3. This storage slot can be written to by calling the function `",
        ("`. " +:+ user_supplied_advice).
  - intros Hw. apply call_issue_trusted, classify_trusted; try done.
    intros idx Hidx. rewrite Hslot in Hidx.
    inversion Hidx; subst. by rewrite Hw.
Qed.

(** The destination [storage_3] of [OwnerScenario], with and without a
    writer of slot 3. *)
Lemma call_issue_storage_slot_witness :
  (~ substring_of "calldata" "storage_3"
   /\ ~ substring_of "caller" "storage_3"
   /\ PyStr.search_storage "storage_3" = Some "3")
  /\ (OwnerScenario.lookup 0xAFFE "3" = Some "setOwner"
      /\ _type (call_issue OwnerScenario.with_writer OwnerScenario.slot_call)
         = "Warning"
      /\ substring_of "setOwner"
           (description (call_issue OwnerScenario.with_writer
                           OwnerScenario.slot_call)))
  /\ (Scenario.no_writer 0xAFFE "3" = None
      /\ _type (call_issue OwnerScenario.without_writer OwnerScenario.slot_call)
         = "Informational").
Proof.
  assert (Ha : ~ substring_of "calldata" "storage_3")
    by (by apply contains_false_spec).
  assert (Hs : ~ substring_of "caller" "storage_3")
    by (by apply contains_false_spec).
  assert (Hslot : PyStr.search_storage "storage_3" = Some "3") by reflexivity.
  split; [by repeat split|]. split.
  - split; [reflexivity|].
    destruct (proj1 (call_issue_storage_slot OwnerScenario.with_writer
                       OwnerScenario.slot_call Ha Hs Hslot) eq_refl)
      as (Hty & _ & Hsub & _).
    by split.
  - split; [reflexivity|].
    exact (proj1 (proj2 (call_issue_storage_slot OwnerScenario.without_writer
                           OwnerScenario.slot_call Ha Hs Hslot) eq_refl)).
Defined.

(** ** The loop of [execute] and the list of visited addresses *)

(** A call whose address has been visited adds its call-level issue, if
    it is analysed, and nothing else; neither the graph nor the store is
    touched. *)
Lemma execute_call_visited statespace call self issues st :
  address (call_state call) ∈ calls_visited self ->
  execute_call statespace call self issues st =
    (Ok (issues ++ (if analysed call then [call_issue statespace call] else []),
         st),
     self).
Proof.
  intros Hin. unfold execute_call, analysed.
  destruct (String.eqb (call_type call) "CALL"); simpl;
    [|by rewrite app_nil_r].
  destruct (gas_target_filter call); [|by rewrite app_nil_r].
  by rewrite bool_decide_eq_true_2.
Qed.

(** The search of [execute] enters the node of the call first. *)
Lemma state_change_addresses_log self statespace call st addresses st' :
  state_change_addresses self statespace call st = Ok (addresses, st') ->
  exists more, log st' = log st ++ uid (call_node call) :: more.
Proof.
  unfold state_change_addresses. rewrite Py_bind_unfold. cbn [list_new].
  set (st0 := {| heap := heap st ++ [[]]; log := log st |}).
  assert (Hxs : heap st0 !! length (heap st) = Some [])
    by (simpl; by rewrite lookup_app_r, Nat.sub_diag by lia).
  rewrite Py_bind_unfold.
  destruct (search_children _ _ _ _ _ _ _ st0) as [[l' st1]|] eqn:Hs; [|done].
  destruct (search_children_inv _ _ _ _ _ _ _ _ _ _ _ Hxs Hs)
    as (r & seen & Hacc & -> & -> & Hr).
  rewrite (list_read_acc _ r) by done. intros H; inversion H; subst.
  destruct (search_acc_enters _ _ _ _ _ _ _ _ _ _ Hacc) as [rest ->].
  by exists (map uid rest).
Qed.

(** One turn of the loop either leaves the visited addresses and the
    store as they are, or it appends the address of its call, which was
    not visited, and searches.  After the turn the address of an analysed
    call is visited. *)
Lemma execute_call_self statespace call self issues st out self' :
  execute_call statespace call self issues st = (out, self') ->
  max_search_depth self' = max_search_depth self
  /\ ((calls_visited self' = calls_visited self
       /\ forall issues' st', out = Ok (issues', st') -> st' = st)
      \/ ((address (call_state call) ∉ calls_visited self)
          /\ calls_visited self' =
               calls_visited self ++ [address (call_state call)]
          /\ forall issues' st', out = Ok (issues', st') ->
               exists more, log st' = log st ++ uid (call_node call) :: more))
  /\ (analysed call = true -> address (call_state call) ∈ calls_visited self').
Proof.
  assert (Hsame : forall issues0, (Ok (issues0, st), self) = (out, self') ->
            max_search_depth self' = max_search_depth self
            /\ ((calls_visited self' = calls_visited self
                 /\ forall issues' st', out = Ok (issues', st') -> st' = st)
                \/ ((address (call_state call) ∉ calls_visited self)
                    /\ calls_visited self' =
                         calls_visited self ++ [address (call_state call)]
                    /\ forall issues' st', out = Ok (issues', st') ->
                         exists more,
                           log st' = log st ++ uid (call_node call) :: more))).
  { intros issues0 H. inversion H; subst. split; [done|]. left.
    split; [done|]. intros issues' st' Hout. by inversion Hout. }
  unfold execute_call, analysed.
  destruct (String.eqb (call_type call) "CALL"); simpl;
    [|intros H; destruct (Hsame _ H); by split_and!].
  destruct (gas_target_filter call);
    [|intros H; destruct (Hsame _ H); by split_and!].
  destruct (bool_decide (address (call_state call) ∈ calls_visited self))
    eqn:Hv; simpl.
  - apply bool_decide_eq_true in Hv. intros H.
    destruct (Hsame _ H) as [Hmax Hstep]. split_and!; [done..|].
    intros _. by inversion H; subst.
  - apply bool_decide_eq_false in Hv. intros H.
    destruct (state_change_addresses _ _ _ st) as [[addresses st1]|] eqn:Hs;
      inversion H; subst; clear H.
    + split; [done|]. split.
      * right. split_and!; [done..|].
        intros issues' st' Hout. inversion Hout; subst.
        by eapply state_change_addresses_log.
      * intros _. simpl. apply elem_of_app. right. by left.
    + split; [done|]. split.
      * right. by split_and!.
      * intros _. simpl. apply elem_of_app. right. by left.
Qed.

Lemma execute_loop_app statespace xs ys : forall self issues st,
  execute_loop statespace (xs ++ ys) self issues st =
    match execute_loop statespace xs self issues st with
    | (Ok (issues', st'), self') => execute_loop statespace ys self' issues' st'
    | (Raise e, self') => (Raise e, self')
    end.
Proof.
  induction xs as [|x xs IH]; intros self issues st; simpl; [done|].
  destruct (execute_call statespace x self issues st)
    as [[[issues' st']|e] self']; [apply IH | done].
Qed.

(** The addresses a run appends to the visited ones are new and
    pairwise distinct; when the run returns, the address of every
    analysed call is among the visited ones. *)
Lemma execute_loop_visited statespace todo : forall self issues st out self',
  execute_loop statespace todo self issues st = (out, self') ->
  exists searched,
    calls_visited self' = calls_visited self ++ searched
    /\ NoDup searched
    /\ (forall a, a ∈ searched -> a ∉ calls_visited self)
    /\ (forall res, out = Ok res ->
        forall c, c ∈ todo -> analysed c = true ->
                  address (call_state c) ∈ calls_visited self').
Proof.
  induction todo as [|call todo IH]; intros self issues st out self' H;
    simpl in H.
  - inversion H; subst. exists []. rewrite app_nil_r. split_and!.
    + done.
    + constructor.
    + by intros a Ha%elem_of_nil.
    + by intros i _ c Hc%elem_of_nil.
  - destruct (execute_call statespace call self issues st)
      as [[[issues1 st1]|e] self1] eqn:Hcall.
    + destruct (execute_call_self _ _ _ _ _ _ _ Hcall) as (_ & Hstep & Hnow).
      destruct (IH _ _ _ _ _ H) as (searched & Hcv & Hnd & Hnew & Hall).
      assert (Hin1 : forall a, a ∈ calls_visited self -> a ∈ calls_visited self1).
      { intros a Ha. destruct Hstep as [[-> _]|(_ & -> & _)]; [done|].
        apply elem_of_app. by left. }
      assert (Hfinal : forall res, out = Ok res ->
                forall c, c ∈ call :: todo -> analysed c = true ->
                          address (call_state c) ∈ calls_visited self').
      { intros res Hout c Hc Han. apply elem_of_cons in Hc as [->|Hc].
        - rewrite Hcv. apply elem_of_app. left. by apply Hnow.
        - by eapply Hall. }
      destruct Hstep as [[Heq _]|(Hfresh & Heq & _)].
      * exists searched. split_and!; [by rewrite Hcv, Heq | done | | done].
        intros a Ha. rewrite <- Heq. by apply Hnew.
      * exists (address (call_state call) :: searched). split_and!.
        -- by rewrite Hcv, Heq, <- app_assoc.
        -- constructor; [|done]. intros Ha. apply (Hnew _ Ha).
           rewrite Heq. apply elem_of_app. right. by left.
        -- intros a Ha Hold. apply elem_of_cons in Ha as [->|Ha]; [done|].
           apply (Hnew _ Ha). by apply Hin1.
        -- done.
    + inversion H; subst.
      destruct (execute_call_self _ _ _ _ _ _ _ Hcall) as (_ & Hstep & _).
      destruct Hstep as [[Heq _]|(Hfresh & Heq & _)].
      * exists []. rewrite app_nil_r. split_and!; [done | constructor | | done].
        by intros a Ha%elem_of_nil.
      * exists [address (call_state call)]. split_and!; [done | | | done].
        -- apply NoDup_singleton.
        -- by intros a ->%list_elem_of_singleton.
Qed.

(** When the address of every analysed call has been visited, the loop
    adds the call-level issues and nothing else, and leaves the instance
    and the store as they are. *)
Lemma execute_loop_all_visited statespace todo : forall self issues st,
  (forall c, c ∈ todo -> analysed c = true ->
             address (call_state c) ∈ calls_visited self) ->
  execute_loop statespace todo self issues st =
    (Ok (issues ++ map (call_issue statespace) (List.filter analysed todo), st),
     self).
Proof.
  induction todo as [|call todo IH]; intros self issues st Hall; simpl.
  - by rewrite app_nil_r.
  - destruct (analysed call) eqn:Han.
    + rewrite execute_call_visited by (apply Hall; [by left | done]).
      rewrite Han, IH by (intros c Hc; apply Hall; by right).
      by rewrite <- app_assoc.
    + assert (Hcall : execute_call statespace call self issues st
                      = (Ok (issues, st), self)).
      { unfold execute_call. unfold analysed in Han.
        destruct (String.eqb (call_type call) "CALL"); [|done].
        simpl in Han. by rewrite Han. }
      rewrite Hcall. apply IH. intros c Hc. apply Hall. by right.
Qed.

Lemma filter_call_level_state_changes call addresses :
  List.filter is_call_level (map (state_change_issue call) addresses) = [].
Proof. by induction addresses. Qed.

Lemma is_call_level_call_issue statespace call :
  is_call_level (call_issue statespace call) = true.
Proof. unfold is_call_level. by rewrite call_issue_title. Qed.

(** The call-level issues among those a run adds are those of the
    analysed calls, in order. *)
Lemma execute_loop_call_level statespace todo :
  forall self issues st issues' st' self',
    execute_loop statespace todo self issues st = (Ok (issues', st'), self') ->
    exists new,
      issues' = issues ++ new
      /\ List.filter is_call_level new =
           map (call_issue statespace) (List.filter analysed todo).
Proof.
  induction todo as [|call todo IH]; intros self issues st issues' st' self' H;
    simpl in H.
  - inversion H; subst. exists []. by rewrite app_nil_r.
  - pose proof (execute_call_issues statespace call self issues st) as Hcall.
    destruct (execute_call statespace call self issues st)
      as [[[issues1 st1]|e] self1]; [|done].
    destruct (IH _ _ _ _ _ _ H) as (new & -> & Hnew). simpl.
    destruct (analysed call).
    + destruct Hcall as [addresses ->].
      exists (call_issue statespace call
                :: map (state_change_issue call) addresses ++ new).
      split; [by rewrite <- app_assoc|].
      simpl. rewrite is_call_level_call_issue, List.filter_app,
        filter_call_level_state_changes. simpl. by rewrite Hnew.
    + subst issues1. by exists new.
Qed.

(** C5. Within one run of [execute] the search is keyed by program
    address.  A turn of the loop either leaves the visited addresses and
    the store untouched (no list object is made and no node is entered:
    no search), or it appends the address of its call, which was not
    visited, and enters the node of the call (a search).  So the addresses
    a run has appended are the searches it has made: they are pairwise
    distinct and none was visited before the run.  Of two flagged calls
    at one address, the second adds its own call-level issue and nothing
    else, and leaves the detector and the store as they are: no second
    search. *)
Theorem search_deduplicated_by_address :
  forall self statespace st before c1 between c2 after issues st' self',
    calls statespace = before ++ c1 :: between ++ c2 :: after ->
    call_type c1 = "CALL" -> gas_target_filter c1 = true ->
    call_type c2 = "CALL" -> gas_target_filter c2 = true ->
    address (call_state c1) = address (call_state c2) ->
    execute self statespace st = (Ok (issues, st'), self') ->
    (exists issues1 st1 self1,
        execute_loop statespace (before ++ c1 :: between) self [] st
          = (Ok (issues1, st1), self1)
        /\ execute_call statespace c2 self1 issues1 st1
           = (Ok (issues1 ++ [call_issue statespace c2], st1), self1))
    /\ (exists searched,
          calls_visited self' = calls_visited self ++ searched
          /\ NoDup searched
          /\ (forall a, a ∈ searched -> a ∉ calls_visited self))
    /\ (forall call self0 issues0 st0 issues0' st0' self0',
          execute_call statespace call self0 issues0 st0
            = (Ok (issues0', st0'), self0') ->
          (calls_visited self0' = calls_visited self0 /\ st0' = st0)
          \/ ((address (call_state call) ∉ calls_visited self0)
              /\ calls_visited self0' =
                   calls_visited self0 ++ [address (call_state call)]
              /\ exists more,
                   log st0' = log st0 ++ uid (call_node call) :: more)).
Proof.
  intros self ss st before c1 between c2 after issues st' self'
    Hcalls Hk1 Hf1 Hk2 Hf2 Haddr Hrun.
  assert (Han1 : analysed c1 = true) by (unfold analysed; by rewrite Hk1, Hf1).
  assert (Han2 : analysed c2 = true) by (unfold analysed; by rewrite Hk2, Hf2).
  split_and!.
  - unfold execute in Hrun. rewrite Hcalls in Hrun.
    replace (before ++ c1 :: between ++ c2 :: after)
      with ((before ++ c1 :: between) ++ c2 :: after) in Hrun
      by (by rewrite <- app_assoc).
    rewrite execute_loop_app in Hrun.
    destruct (execute_loop ss (before ++ c1 :: between) self [] st)
      as [[[issues1 st1]|e] self1] eqn:Hfirst; [|done].
    exists issues1, st1, self1. split; [done|].
    destruct (execute_loop_visited _ _ _ _ _ _ _ Hfirst)
      as (_ & _ & _ & _ & Hall).
    rewrite execute_call_visited, Han2; [done|].
    rewrite <- Haddr. eapply Hall; [done| |done].
    apply elem_of_app. right. by left.
  - destruct (execute_loop_visited _ _ _ _ _ _ _ Hrun)
      as (searched & Hcv & Hnd & Hnew & _).
    by exists searched.
  - intros call self0 issues0 st0 issues0' st0' self0' Hcall.
    destruct (execute_call_self _ _ _ _ _ _ _ Hcall)
      as (_ & [[Heq Hst]|(Hfresh & Heq & Hlog)] & _).
    + left. split; [done|]. by eapply Hst.
    + right. split_and!; [done..|]. by eapply Hlog.
Qed.

(** On [Scenario.twice] the call occurs twice: the first occurrence is
    searched, the second adds only its call-level issue. *)
Lemma search_deduplicated_by_address_witness :
  execute detector Scenario.twice empty_store
  = (Ok ([call_issue Scenario.twice Scenario.the_call;
          state_change_issue Scenario.the_call 0x42;
          state_change_issue Scenario.the_call 0x42;
          call_issue Scenario.twice Scenario.the_call],
         {| heap := [[0x42; 0x42]]; log := [0; 2] |}),
     visit detector 0x10)
  /\ (exists issues1 st1 self1,
        execute_loop Scenario.twice ([] ++ Scenario.the_call :: []) detector []
          empty_store
          = (Ok (issues1, st1), self1)
        /\ execute_call Scenario.twice Scenario.the_call self1 issues1 st1
           = (Ok (issues1 ++ [call_issue Scenario.twice Scenario.the_call], st1),
              self1))
  /\ (exists searched,
        calls_visited (visit detector 0x10) = calls_visited detector ++ searched
        /\ NoDup searched
        /\ (forall a, a ∈ searched -> a ∉ calls_visited detector)).
Proof.
  assert (Hrun : execute detector Scenario.twice empty_store
                 = (Ok ([call_issue Scenario.twice Scenario.the_call;
                         state_change_issue Scenario.the_call 0x42;
                         state_change_issue Scenario.the_call 0x42;
                         call_issue Scenario.twice Scenario.the_call],
                        {| heap := [[0x42; 0x42]]; log := [0; 2] |}),
                    visit detector 0x10))
    by (vm_compute; reflexivity).
  split; [exact Hrun|].
  destruct (search_deduplicated_by_address detector Scenario.twice empty_store
              [] Scenario.the_call [] Scenario.the_call [] _ _ _
              eq_refl eq_refl eq_refl eq_refl eq_refl eq_refl Hrun)
    as (Hsecond & Hsearched & _).
  by split.
Defined.

(** C4, the statement as written fails: on [Scenario.chain] the first
    run of the detector returns five issues and the second run, on the
    same instance, returns one. *)
Lemma second_run_differs : ~ runs_are_independent.
Proof.
  intros H.
  assert (H1 : execute detector Scenario.chain empty_store
               = (Ok (call_issue Scenario.chain Scenario.the_call
                        :: map (state_change_issue Scenario.the_call)
                             [0x42; 0x42; 0x42; 0x42],
                      {| heap := [[0x42; 0x42; 0x42; 0x42]];
                         log := [0; 1; 2] |}),
                  visit detector 0x10))
    by (vm_compute; reflexivity).
  assert (H2 : execute (visit detector 0x10) Scenario.chain
                 {| heap := [[0x42; 0x42; 0x42; 0x42]]; log := [0; 1; 2] |}
               = (Ok ([call_issue Scenario.chain Scenario.the_call],
                      {| heap := [[0x42; 0x42; 0x42; 0x42]];
                         log := [0; 1; 2] |}),
                  visit detector 0x10))
    by (vm_compute; reflexivity).
  specialize (H _ _ _ _ _ _ _ _ _ H1 H2). inversion H.
Qed.

(** C4, as the code has it.  The list of issues is local to one run, but
    [calls_visited] is an attribute of the detector instance and outlives
    the run.  After a run that returned, a second run on the same
    instance and statespace makes no search (it leaves the store, and so
    the log of the search, as it finds it) and leaves the instance as it
    is; it returns the call-level issues of the first run, in order, and
    none of its issues titled "State change after external call". *)
Theorem second_run_returns_call_level_issues :
  forall self statespace st issues1 st1 self1,
    execute self statespace st = (Ok (issues1, st1), self1) ->
    forall st2,
      execute self1 statespace st2
      = (Ok (List.filter is_call_level issues1, st2), self1).
Proof.
  intros self ss st issues1 st1 self1 Hrun st2. unfold execute in *.
  destruct (execute_loop_visited _ _ _ _ _ _ _ Hrun) as (_ & _ & _ & _ & Hall).
  destruct (execute_loop_call_level _ _ _ _ _ _ _ _ Hrun) as (new & -> & Hnew).
  rewrite execute_loop_all_visited by (intros c Hc Han; by eapply Hall).
  simpl. by rewrite Hnew.
Qed.

Lemma second_run_returns_call_level_issues_witness :
  execute detector Scenario.chain empty_store
  = (Ok (call_issue Scenario.chain Scenario.the_call
           :: map (state_change_issue Scenario.the_call)
                [0x42; 0x42; 0x42; 0x42],
         {| heap := [[0x42; 0x42; 0x42; 0x42]]; log := [0; 1; 2] |}),
     visit detector 0x10)
  /\ execute (visit detector 0x10) Scenario.chain empty_store
     = (Ok (List.filter is_call_level
              (call_issue Scenario.chain Scenario.the_call
                 :: map (state_change_issue Scenario.the_call)
                      [0x42; 0x42; 0x42; 0x42]),
            empty_store),
        visit detector 0x10).
Proof.
  assert (H1 : execute detector Scenario.chain empty_store
               = (Ok (call_issue Scenario.chain Scenario.the_call
                        :: map (state_change_issue Scenario.the_call)
                             [0x42; 0x42; 0x42; 0x42],
                      {| heap := [[0x42; 0x42; 0x42; 0x42]];
                         log := [0; 1; 2] |}),
                  visit detector 0x10))
    by (vm_compute; reflexivity).
  split; [exact H1|].
  exact (second_run_returns_call_level_issues _ _ _ _ _ _ H1 empty_store).
Defined.

(** C1.  On [Scenario.chain] (a call of kind ["CALL"] to
    [calldata_arg_0] with 5000 gas, its node linked through one node to a
    node with a storage write of the same transaction at [0x42], the
    default depth bound of 64) [execute] does not return two issues but
    five: the call-level Warning and four copies of the Warning "State
    change after external call" at [0x42].  The log shows that the search
    has entered each of the three nodes once. *)
Theorem execute_on_chain_returns_five_issues :
  exists issues,
    execute detector Scenario.chain empty_store
    = (Ok (issues, {| heap := [[0x42; 0x42; 0x42; 0x42]]; log := [0; 1; 2] |}),
       visit detector 0x10)
    /\ map (fun i => (title i, _type i, issue_address i)) issues
       = [("Message call to external contract", "Warning", 0x10);
          ("State change after external call", "Warning", 0x42);
          ("State change after external call", "Warning", 0x42);
          ("State change after external call", "Warning", 0x42);
          ("State change after external call", "Warning", 0x42)]
    /\ length issues = 5%nat.
Proof.
  eexists. split; [vm_compute; reflexivity|]. split; reflexivity.
Qed.

(** The same call with 2100 gas is filtered out: no issue, no search. *)
Example execute_low_gas :
  execute detector
    {| nodes := Scenario.all_nodes;
       edges := edges Scenario.chain;
       calls := [Scenario.call_with (Symbolic "calldata_arg_0") (Concrete 2100)];
       find_storage_write := Scenario.no_writer |}
    empty_store
  = (Ok ([], empty_store), detector).
Proof. reflexivity. Qed.

(** * Further properties of the module *)

(** ** The scan of the node a search is called on *)

Lemma scan_acc_own node tx start acc :
  0 <= start ->
  (if Z.of_nat (length (states node)) >? start
   then scan_acc node tx
          (seqZ start (Z.of_nat (length (states node)) - start)) acc
   else Ok acc)
  = Ok (acc ++ sstore_addresses tx (drop (Z.to_nat start) (states node))).
Proof.
  intros H0. destruct (_ >? start) eqn:Hn.
  - rewrite Z.gtb_ltb in Hn. apply Z.ltb_lt in Hn.
    replace (Z.of_nat (length (states node)) - start)
      with (Z.of_nat (Z.to_nat (Z.of_nat (length (states node)) - start)))
      by lia.
    apply scan_acc_from; lia.
  - rewrite Z.gtb_ltb in Hn. apply Z.ltb_ge in Hn.
    rewrite drop_ge by lia. by rewrite app_nil_r.
Qed.

Lemma children_acc_no_edge statespace node es : forall cs0,
  (forall e, e ∈ es -> node_from e = uid node -> edge_type e = Transaction) ->
  children_acc statespace node es cs0 = Ok cs0.
Proof.
  induction es as [|e es IH]; intros cs0 H; simpl; [done|].
  destruct (bool_decide (node_from e = uid node)) eqn:Hf; simpl.
  - apply bool_decide_eq_true in Hf.
    assert (Ht : edge_type e = Transaction) by (apply H; [by left | done]).
    rewrite (bool_decide_eq_true_2 (edge_type e = Transaction) Ht). simpl.
    apply IH. intros e' He'. apply H. by right.
  - apply IH. intros e' He'. apply H. by right.
Qed.

(** X1. Called below the depth bound, with a start index that is not
    negative, on a node that no edge leaves except across a transaction
    boundary, the search returns the list it was given, extended by the
    addresses of the storage writes of the transaction among the states
    of the node from the start index on, in program order and each once;
    the node is the only one it enters. *)
Theorem search_children_on_leaf :
  forall self statespace node transaction_id start_index depth l xs st,
    heap st !! l = Some xs ->
    depth < max_search_depth self ->
    0 <= start_index ->
    (forall e, e ∈ edges statespace -> node_from e = uid node ->
               edge_type e = Transaction) ->
    search_children self statespace node transaction_id start_index depth
      (Some l) st
    = Ok (l, {| heap := <[l := xs ++ sstore_addresses transaction_id
                                     (drop (Z.to_nat start_index) (states node))]>
                          (heap st);
                log := log st ++ [uid node] |}).
Proof.
  intros self ss node tx start depth l xs st Hxs Hd H0 Hleaf.
  unfold search_children, fuel_for.
  rewrite (search_children_fuel_acc _ _ _ _ _ _ _ _ xs) by done.
  cbn [search_acc]. rewrite (proj2 (Z.ltb_lt _ _) Hd).
  rewrite scan_acc_own by done.
  rewrite children_acc_no_edge by done. reflexivity.
Qed.

Lemma search_children_on_leaf_witness :
  search_children detector Scenario.across Scenario.writer 1 0 0 (Some 0%nat)
    Scenario.one_list
  = Ok (0%nat, {| heap := [[0x42]]; log := [2] |}).
Proof.
  apply (search_children_on_leaf detector Scenario.across Scenario.writer 1 0 0
           0%nat [] Scenario.one_list).
  - reflexivity.
  - simpl. lia.
  - lia.
  - intros e He Hfrom. apply list_elem_of_singleton in He. by subst e.
Defined.

(** ** Where the returned addresses come from *)

Lemma getitem_elem {A} (xs : list A) (j : Z) (x : A) :
  getitem xs j = Some x -> x ∈ xs.
Proof.
  unfold getitem. destruct (0 <=? j); [by apply list_elem_of_lookup_2|].
  destruct (_ <=? j); [by apply list_elem_of_lookup_2 | done].
Qed.

Lemma sstore_in_spec tx s :
  sstore_in tx s = true <-> opcode s = "SSTORE" /\ current_transaction_id s = tx.
Proof.
  unfold sstore_in. rewrite andb_true_iff, String.eqb_eq, bool_decide_eq_true.
  done.
Qed.

Lemma scan_acc_sound node tx js : forall acc r,
  scan_acc node tx js acc = Ok r ->
  forall a, a ∈ r ->
    a ∈ acc \/ exists s, s ∈ states node /\ sstore_in tx s = true /\ address s = a.
Proof.
  induction js as [|j js IH]; intros acc r H a Ha; simpl in H.
  - inversion H; subst. by left.
  - destruct (getitem (states node) j) as [s|] eqn:Hs; [|done].
    destruct (IH _ _ H a Ha) as [Hin|?]; [|by right].
    destruct (sstore_in tx s) eqn:Hhit; [|by left].
    apply elem_of_app in Hin as [?|Hin]; [by left|].
    apply list_elem_of_singleton in Hin as ->.
    right. exists s. split; [by eapply getitem_elem | done].
Qed.

Lemma loop_acc_sound (rec : Node -> list Z -> outcome (list Z * list Node))
    (Q : Z -> Prop) :
  forall cs acc r s,
    (forall c a r' s', c ∈ cs -> rec c a = Ok (r', s') ->
       forall x, x ∈ r' -> x ∈ a \/ Q x) ->
    loop_acc rec cs acc = Ok (r, s) ->
    forall x, x ∈ r -> x ∈ acc \/ Q x.
Proof.
  induction cs as [|c cs IH]; intros acc r s Hrec H x Hx; simpl in H.
  - inversion H; subst. by left.
  - destruct (rec c acc) as [[r1 s1]|] eqn:Hc; [|done].
    destruct (loop_acc rec cs (r1 ++ r1)) as [[r2 s2]|] eqn:Hl; [|done].
    inversion H; subst.
    assert (Hrest : x ∈ r1 ++ r1 \/ Q x).
    { eapply IH; [|exact Hl|exact Hx].
      intros c' a r' s' Hin. apply Hrec. by right. }
    destruct Hrest as [Hin|?]; [|by right].
    assert (Hin1 : x ∈ r1) by (apply elem_of_app in Hin; tauto).
    eapply Hrec; [|exact Hc|exact Hin1]. by left.
Qed.

Lemma search_acc_sound fuel :
  forall self statespace node tx start_index depth acc r seen,
    search_acc fuel self statespace node tx start_index depth acc = Ok (r, seen) ->
    forall a, a ∈ r -> a ∈ acc \/ write_after statespace node tx a.
Proof.
  induction fuel as [|fuel IH];
    intros self ss node tx start depth acc r seen H a Ha; [done|].
  cbn [search_acc] in H.
  destruct (depth <? max_search_depth self); [|inversion H; subst; by left].
  destruct (if _ >? start then _ else _) as [acc1|] eqn:Hscan; [|done].
  destruct (children_acc ss node (edges ss) []) as [cs|] eqn:Hcs; [|done].
  destruct (loop_acc _ cs acc1) as [[r1 s1]|] eqn:Hl; [|done].
  inversion H; subst r1 seen; clear H.
  assert (Hloop : a ∈ acc1 \/ write_after ss node tx a).
  { eapply loop_acc_sound; [|exact Hl|exact Ha].
    intros c a0 r' s' Hin Hc x Hx. cbv beta in Hc.
    destruct (IH _ _ _ _ _ _ _ _ _ Hc x Hx) as [?|Hw]; [by left|]. right.
    apply (children_acc_elem _ _ _ _ _ Hcs) in Hin
      as [Hin|(e & He & Hf & Ht & Hn)]; [by apply elem_of_nil in Hin|].
    destruct Hw as (n' & s & Hfol & Hrest). exists n', s. split; [|done].
    eapply followed_trans; [|exact Hfol].
    eapply followed_step; [apply followed_start|done..]. }
  destruct Hloop as [Hin|?]; [|by right].
  destruct (_ >? start).
  - destruct (scan_acc_sound _ _ _ _ _ Hscan a Hin) as [?|(s & Hs & Hhit & Hadr)];
      [by left|].
    right. apply sstore_in_spec in Hhit as [Hop Htx].
    exists node, s. split; [apply followed_start | done].
  - inversion Hscan; subst. by left.
Qed.

(** X2. The search reports nothing but storage writes of the call's
    transaction that lie behind the call: every address in the list it
    returns was in the list on entry, or is the address of an [SSTORE]
    state with the given transaction id in the starting node or in a
    node reached from it without crossing a transaction boundary.  In
    particular states of other opcodes and states of other transactions
    are never reported. *)
Theorem search_children_reports_only_later_writes :
  forall self statespace node transaction_id start_index depth results st
         l' st' r a,
    valid_results results st ->
    search_children self statespace node transaction_id start_index depth
      results st = Ok (l', st') ->
    heap st' !! l' = Some r ->
    a ∈ r ->
    (exists l xs, results = Some l /\ heap st !! l = Some xs /\ a ∈ xs)
    \/ write_after statespace node transaction_id a.
Proof.
  intros self ss node tx start depth results st l' st' r a Hv H Hr Ha.
  destruct (search_children_returns _ _ _ _ _ _ _ _ _ _ Hv H)
    as (xs & r0 & seen & Hacc & Hres & _ & Hr0).
  rewrite Hr in Hr0. inversion Hr0; subst r0.
  destruct (search_acc_sound _ _ _ _ _ _ _ _ _ _ Hacc a Ha) as [Hin|?];
    [|by right].
  destruct results as [l|].
  - destruct Hres as [-> Hxs]. left. by exists l, xs.
  - destruct Hres as [_ ->]. by apply elem_of_nil in Hin.
Qed.

(** On [Scenario.chain] the four addresses returned are the write at
    [0x42]. *)
Lemma search_children_reports_only_later_writes_witness :
  (exists l xs, Some 0%nat = Some l /\ [[]] !! l = Some xs /\ 0x42 ∈ xs)
  \/ write_after Scenario.chain Scenario.call_site 1 0x42.
Proof.
  apply (search_children_reports_only_later_writes detector Scenario.chain
           Scenario.call_site 1 1 0 (Some 0%nat) Scenario.one_list 0%nat
           {| heap := [[0x42; 0x42; 0x42; 0x42]]; log := [0; 1; 2] |}
           [0x42; 0x42; 0x42; 0x42] 0x42).
  - by eexists.
  - vm_compute. reflexivity.
  - reflexivity.
  - by left.
Defined.

(** ** What the search does to the store *)

(** X7. The search writes to one list object only.  Given a list, it
    leaves every other list object of the store as it is, makes no new
    one, and only appends to the one it was given: the elements on entry
    are a prefix of the elements on exit.  Called with the default
    [results=None], it makes exactly one new list object, which it
    returns, and leaves those that exist as they are. *)
Theorem search_children_touches_one_list :
  forall self statespace node transaction_id start_index depth results st
         l' st',
    valid_results results st ->
    search_children self statespace node transaction_id start_index depth
      results st = Ok (l', st') ->
    match results with
    | Some l =>
        l' = l
        /\ length (heap st') = length (heap st)
        /\ (forall other, other <> l -> heap st' !! other = heap st !! other)
        /\ exists xs r, heap st !! l = Some xs /\ heap st' !! l = Some r
                        /\ xs `prefix_of` r
    | None =>
        l' = length (heap st)
        /\ exists r, heap st' = heap st ++ [r]
    end.
Proof.
  intros self ss node tx start depth results st l' st' Hv H.
  destruct results as [l|].
  - destruct Hv as [xs Hxs].
    destruct (search_children_inv _ _ _ _ _ _ _ _ _ _ _ Hxs H)
      as (r & seen & Hacc & -> & -> & Hr).
    split_and!; [done | apply length_insert | |].
    + intros other Hne. simpl. by apply list_lookup_insert_ne.
    + exists xs, r. split_and!; [done..|]. by eapply search_acc_prefix.
  - unfold search_children in H. rewrite search_children_fuel_default in H.
    set (st0 := {| heap := heap st ++ [[]]; log := log st |}) in H.
    assert (Hxs : heap st0 !! length (heap st) = Some [])
      by (simpl; by rewrite lookup_app_r, Nat.sub_diag by lia).
    destruct (search_children_inv _ _ _ _ _ _ _ _ _ _ _ Hxs H)
      as (r & seen & Hacc & -> & -> & Hr).
    split; [done|]. exists r. simpl.
    rewrite insert_app_r_alt, Nat.sub_diag by lia. reflexivity.
Qed.

Lemma search_children_touches_one_list_witness :
  1%nat = length (heap Scenario.one_list)
  /\ exists r, [[]; [0x42; 0x42]] = heap Scenario.one_list ++ [r].
Proof.
  apply (search_children_touches_one_list detector Scenario.short
           Scenario.call_site 1 1 0 None Scenario.one_list 1%nat
           {| heap := [[]; [0x42; 0x42]]; log := [0; 2] |}).
  - exact I.
  - vm_compute. reflexivity.
Defined.

(** ** How often an address is returned *)

Lemma count_occ_prefix (l1 l2 : list Z) (a : Z) :
  l1 `prefix_of` l2 ->
  (count_occ Z.eq_dec l1 a <= count_occ Z.eq_dec l2 a)%nat.
Proof. intros [k ->]. rewrite count_occ_app. lia. Qed.

Lemma loop_acc_child_twice (rec : Node -> list Z -> outcome (list Z * list Node)) :
  (forall c a r s, rec c a = Ok (r, s) -> a `prefix_of` r) ->
  forall cs acc r s c,
    loop_acc rec cs acc = Ok (r, s) -> c ∈ cs ->
    exists a r1 s1, rec c a = Ok (r1, s1) /\ (r1 ++ r1) `prefix_of` r.
Proof.
  intros Hrec. induction cs as [|c0 cs IH]; intros acc r s c H Hin; simpl in H.
  - by apply elem_of_nil in Hin.
  - destruct (rec c0 acc) as [[r1 s1]|] eqn:Hc; [|done].
    destruct (loop_acc rec cs (r1 ++ r1)) as [[r2 s2]|] eqn:Hl; [|done].
    inversion H; subst. apply elem_of_cons in Hin as [->|Hin].
    + exists acc, r1, s1. split; [done|]. by eapply loop_acc_prefix.
    + by eapply IH.
Qed.

(** One edge doubles whatever the search of the child guarantees. *)
Lemma search_acc_count_step fuel self statespace node child e tx start_index
    depth acc r seen (x : Z) (n : nat) :
  e ∈ edges statespace ->
  node_from e = uid node ->
  edge_type e <> Transaction ->
  nodes statespace !! node_to e = Some child ->
  depth < max_search_depth self ->
  (forall a0 r1 s1,
     search_acc fuel self statespace child tx 0 (depth + 1) a0 = Ok (r1, s1) ->
     (n <= count_occ Z.eq_dec r1 x)%nat) ->
  search_acc (S fuel) self statespace node tx start_index depth acc
    = Ok (r, seen) ->
  (2 * n <= count_occ Z.eq_dec r x)%nat.
Proof.
  intros He Hfrom Hty Hchild Hd Hrec H. cbn [search_acc] in H.
  rewrite (proj2 (Z.ltb_lt _ _) Hd) in H.
  destruct (if _ >? start_index then _ else _) as [acc1|]; [|done].
  destruct (children_acc statespace node (edges statespace) []) as [cs|] eqn:Hcs;
    [|done].
  destruct (loop_acc _ cs acc1) as [[r1 s1]|] eqn:Hl; [|done].
  inversion H; subst r1 seen; clear H.
  assert (Hin : child ∈ cs).
  { apply (children_acc_elem _ _ _ _ _ Hcs). right. by exists e. }
  eapply loop_acc_child_twice in Hl as (a0 & r1 & s2 & Hc & Hpre);
    [|intros c a r' s' Hc; cbv beta in Hc; by eapply search_acc_prefix
     |exact Hin].
  cbv beta in Hc. apply Hrec in Hc.
  apply (count_occ_prefix _ _ x) in Hpre. rewrite count_occ_app in Hpre. lia.
Qed.

Lemma search_acc_count statespace k node target :
  hops statespace k node target ->
  forall fuel self tx depth acc r seen s,
    depth + Z.of_nat k < max_search_depth self ->
    s ∈ states target ->
    opcode s = "SSTORE" ->
    current_transaction_id s = tx ->
    search_acc fuel self statespace node tx 0 depth acc = Ok (r, seen) ->
    (2 ^ k <= count_occ Z.eq_dec r (address s))%nat.
Proof.
  induction 1 as [a|k a b c e He Hfrom Hty Hb Hhops IH];
    intros fuel self tx depth acc r seen s Hd Hs Hop Htx H;
    (destruct fuel as [|fuel]; [done|]).
  - apply search_acc_scans_node in H; [|lia].
    apply (count_occ_prefix _ _ (address s)) in H.
    rewrite count_occ_app in H.
    assert (Hin : In (address s) (sstore_addresses tx (states a)))
      by (by apply list_elem_of_In, sstore_addresses_elem).
    apply (count_occ_In Z.eq_dec) in Hin. simpl. lia.
  - change (2 ^ S k)%nat with (2 * 2 ^ k)%nat.
    apply (search_acc_count_step fuel self statespace a b e tx 0 depth acc r
             seen (address s) (2 ^ k));
      [exact He|exact Hfrom|exact Hty|exact Hb|lia| |exact H].
    intros a0 r1 s1 Hc. eapply IH; [|done..]. lia.
Qed.

(** X3. A storage write of the call's transaction in a node [k + 1]
    edges away, along edges that are not transaction boundaries and
    within the depth bound, is found; and because the list is extended
    by itself on the way back through each of the [k + 1] callers, its
    address is returned at least [2 ^ (k + 1)] times. *)
Theorem search_children_finds_and_multiplies :
  forall self statespace node target transaction_id start_index depth l xs st
         l' st' (k : nat) s,
    heap st !! l = Some xs ->
    hops statespace (S k) node target ->
    depth + Z.of_nat (S k) < max_search_depth self ->
    s ∈ states target ->
    opcode s = "SSTORE" ->
    current_transaction_id s = transaction_id ->
    search_children self statespace node transaction_id start_index depth
      (Some l) st = Ok (l', st') ->
    exists r, heap st' !! l' = Some r
              /\ (2 ^ S k <= count_occ Z.eq_dec r (address s))%nat.
Proof.
  intros self ss node target tx start depth l xs st l' st' k s
    Hxs Hhops Hd Hs Hop Htx H.
  destruct (search_children_inv _ _ _ _ _ _ _ _ _ _ _ Hxs H)
    as (r & seen & Hacc & -> & -> & Hr).
  exists r. split; [done|].
  inversion Hhops as [|k' a b c e He Hfrom Hty Hb Hrest]; subst.
  unfold fuel_for in Hacc.
  change (2 ^ S k)%nat with (2 * 2 ^ k)%nat.
  apply (search_acc_count_step (Z.to_nat (max_search_depth self - depth)) self
           ss node b e (current_transaction_id s) start depth xs r seen
           (address s) (2 ^ k));
    [exact He|exact Hfrom|exact Hty|exact Hb|lia| |exact Hacc].
  intros a0 r1 s1 Hc. eapply search_acc_count; [exact Hrest| |done..]. lia.
Qed.

(** On [Scenario.chain] the write is two edges from the call: at least
    four copies. *)
Lemma search_children_finds_and_multiplies_witness :
  hops Scenario.chain 2 Scenario.call_site Scenario.writer
  /\ exists r, [[0x42; 0x42; 0x42; 0x42]] !! 0%nat = Some r
               /\ (2 ^ 2 <= count_occ Z.eq_dec r 0x42%Z)%nat.
Proof.
  assert (Hhops : hops Scenario.chain 2 Scenario.call_site Scenario.writer).
  { apply (hops_next _ 1 _ Scenario.middle _ (Scenario.edge 0 1 IntraFlow));
      [by left | done | done | done |].
    apply (hops_next _ 0 _ Scenario.writer _ (Scenario.edge 1 2 IntraFlow));
      [by right; left | done | done | done |].
    apply hops_here. }
  split; [exact Hhops|].
  apply (search_children_finds_and_multiplies detector Scenario.chain
           Scenario.call_site Scenario.writer 1 1 0 0%nat [] Scenario.one_list
           0%nat {| heap := [[0x42; 0x42; 0x42; 0x42]]; log := [0; 1; 2] |}
           1%nat (Scenario.state_at "SSTORE" 0x42)).
  - reflexivity.
  - exact Hhops.
  - simpl. lia.
  - by left.
  - reflexivity.
  - reflexivity.
  - vm_compute. reflexivity.
Defined.

(** ** The exceptions of the search *)

Lemma getitem_in_range {A} (xs : list A) (j : Z) :
  - Z.of_nat (length xs) <= j < Z.of_nat (length xs) -> is_Some (getitem xs j).
Proof.
  intros Hj. unfold getitem. destruct (0 <=? j) eqn:H0.
  - apply Z.leb_le in H0. apply lookup_lt_is_Some_2. lia.
  - apply Z.leb_gt in H0. rewrite (proj2 (Z.leb_le _ _)) by lia.
    apply lookup_lt_is_Some_2. lia.
Qed.

Lemma getitem_below {A} (xs : list A) (j : Z) :
  j < - Z.of_nat (length xs) -> getitem xs j = None.
Proof.
  intros Hj. unfold getitem.
  rewrite (proj2 (Z.leb_gt 0 j)) by lia.
  by rewrite (proj2 (Z.leb_gt _ j)) by lia.
Qed.

Lemma scan_acc_returns node tx (k : nat) : forall start acc,
  - Z.of_nat (length (states node)) <= start ->
  start + Z.of_nat k <= Z.of_nat (length (states node)) ->
  exists r, scan_acc node tx (seqZ start (Z.of_nat k)) acc = Ok r.
Proof.
  induction k as [|k IH]; intros start acc Hlo Hhi.
  - by exists acc.
  - rewrite seqZ_cons by lia. simpl.
    destruct (getitem_in_range (states node) start) as [s ->]; [lia|].
    replace (Z.pred (Z.of_nat (S k))) with (Z.of_nat k) by lia.
    apply IH; lia.
Qed.

(** The scan of the node a search is called on raises [IndexError] when
    the start index lies before the list, and returns otherwise. *)
Lemma scan_acc_outcome node tx start acc :
  let n := Z.of_nat (length (states node)) in
  let scan := if n >? start
              then scan_acc node tx (seqZ start (n - start)) acc
              else Ok acc in
  (start < - n -> scan = Raise IndexError)
  /\ (- n <= start -> exists r, scan = Ok r).
Proof.
  intros n scan. subst scan. split.
  - intros Hlo. rewrite (proj2 (Z.gtb_lt _ _)) by lia.
    rewrite seqZ_cons by lia. simpl. by rewrite getitem_below.
  - intros Hlo. destruct (n >? start) eqn:Hn; [|by eexists].
    rewrite Z.gtb_ltb in Hn. apply Z.ltb_lt in Hn.
    replace (n - start) with (Z.of_nat (Z.to_nat (n - start))) by lia.
    apply scan_acc_returns; lia.
Qed.

Lemma children_acc_raises statespace node es : forall cs0 err,
  children_acc statespace node es cs0 = Raise err ->
  exists e, e ∈ es /\ node_from e = uid node /\ edge_type e <> Transaction
            /\ nodes statespace !! node_to e = None
            /\ err = KeyError (node_to e).
Proof.
  induction es as [|e es IH]; intros cs0 err H; simpl in H; [done|].
  destruct (bool_decide (node_from e = uid node)) eqn:Hf;
    destruct (bool_decide (edge_type e = Transaction)) eqn:Ht; simpl in H;
    try (destruct (IH _ _ H) as (e' & He' & Hrest); exists e';
         split; [by right | done]).
  apply bool_decide_eq_true in Hf. apply bool_decide_eq_false in Ht.
  destruct (nodes statespace !! node_to e) eqn:Hn.
  - destruct (IH _ _ H) as (e' & He' & Hrest). exists e'.
    split; [by right | done].
  - inversion H; subst. exists e. split; [by left | done].
Qed.


Lemma loop_acc_raises (rec : Node -> list Z -> outcome (list Z * list Node)) :
  forall cs acc err,
    loop_acc rec cs acc = Raise err ->
    exists c a, c ∈ cs /\ rec c a = Raise err.
Proof.
  induction cs as [|c cs IH]; intros acc err H; simpl in H; [done|].
  destruct (rec c acc) as [[r1 s1]|e] eqn:Hc.
  - destruct (loop_acc rec cs (r1 ++ r1)) as [[r2 s2]|e] eqn:Hl; [done|].
    inversion H; subst. destruct (IH _ _ Hl) as (c' & a & Hin & Hr).
    exists c', a. split; [by right | done].
  - inversion H; subst. exists c, acc. split; [by left | done].
Qed.

(** Why a search fails, when it does. *)
Lemma search_acc_error fuel :
  forall self statespace node tx start_index depth acc err,
    (Z.to_nat (max_search_depth self - depth) < fuel)%nat ->
    search_acc fuel self statespace node tx start_index depth acc = Raise err ->
    (err = IndexError /\ depth < max_search_depth self
     /\ start_index < - Z.of_nat (length (states node)))
    \/ (exists b e,
          followed statespace node b /\ e ∈ edges statespace
          /\ node_from e = uid b /\ edge_type e <> Transaction
          /\ nodes statespace !! node_to e = None
          /\ err = KeyError (node_to e)).
Proof.
  induction fuel as [|fuel IH];
    intros self ss node tx start depth acc err Hfuel H; [lia|].
  cbn [search_acc] in H.
  destruct (depth <? max_search_depth self) eqn:Hd; [|done].
  apply Z.ltb_lt in Hd.
  destruct (scan_acc_outcome node tx start acc) as [Hlow Hok].
  destruct (Z_lt_le_dec start (- Z.of_nat (length (states node)))) as [Hlt|Hge].
  - rewrite (Hlow Hlt) in H. inversion H; subst. by left.
  - destruct (Hok Hge) as [acc1 Hscan]. rewrite Hscan in H. right.
    destruct (children_acc ss node (edges ss) []) as [cs|e] eqn:Hcs.
    + destruct (loop_acc _ cs acc1) as [[r1 s1]|e] eqn:Hl; [done|].
      inversion H; subst e; clear H.
      destruct (loop_acc_raises _ _ _ _ Hl) as (c & a & Hin & Hc).
      cbv beta in Hc.
      apply (children_acc_elem _ _ _ _ _ Hcs) in Hin
        as [Hin|(e & He & Hf & Ht & Hn)]; [by apply elem_of_nil in Hin|].
      assert (Hfuel' : (Z.to_nat (max_search_depth self - (depth + 1)) < fuel)%nat)
        by lia.
      destruct (IH _ _ _ _ _ _ _ _ Hfuel' Hc)
        as [(_ & _ & Hneg)|(b & e' & Hfol & Hrest)]; [lia|].
      exists b, e'. split; [|done].
      eapply followed_trans; [|exact Hfol].
      eapply followed_step; [apply followed_start|done..].
    + inversion H; subst e; clear H.
      destruct (children_acc_raises _ _ _ _ _ Hcs) as (e & He & Hrest).
      exists node, e. split; [apply followed_start | done].
Qed.

Lemma search_children_outcome self statespace node tx start_index depth l xs st :
  heap st !! l = Some xs ->
  search_children self statespace node tx start_index depth (Some l) st =
    match search_acc (fuel_for self depth) self statespace node tx start_index
            depth xs with
    | Ok (r, seen) => Ok (l, updated l r (map uid seen) st)
    | Raise e => Raise e
    end.
Proof. intros H. by apply search_children_fuel_acc. Qed.

(** X4. Given a list, the search raises [IndexError] exactly when it is
    called below the depth bound with a start index that lies before the
    list of states, that is, below [-len(node.states)]: a negative index
    down to [-len(node.states)] is a subscript from the end, and a start
    index at or beyond the end skips the scan.  The nodes further down
    are scanned from 0 and never raise it. *)
Theorem search_children_index_error :
  forall self statespace node transaction_id start_index depth l xs st,
    heap st !! l = Some xs ->
    (search_children self statespace node transaction_id start_index depth
       (Some l) st = Raise IndexError
     <-> depth < max_search_depth self
         /\ start_index < - Z.of_nat (length (states node))).
Proof.
  intros self ss node tx start depth l xs st Hxs.
  rewrite (search_children_outcome _ _ _ _ _ _ _ xs) by done. split.
  - intros H.
    destruct (search_acc _ _ _ _ _ _ _ _) as [[r seen]|err] eqn:Hacc; [done|].
    inversion H; subst err.
    apply search_acc_error in Hacc
      as [(_ & Hd & Hlow)|(b & e & _ & _ & _ & _ & _ & Hk)];
      [done | done | unfold fuel_for; lia].
  - intros [Hd Hlow]. unfold fuel_for. cbn [search_acc].
    rewrite (proj2 (Z.ltb_lt _ _) Hd).
    by rewrite (proj1 (scan_acc_outcome node tx start xs) Hlow).
Qed.

Lemma search_children_index_error_witness :
  search_children detector Scenario.chain Scenario.call_site 1 (-2) 0
    (Some 0%nat) Scenario.one_list = Raise IndexError.
Proof.
  apply (search_children_index_error detector Scenario.chain Scenario.call_site
           1 (-2) 0 0%nat [] Scenario.one_list eq_refl).
  split; simpl; lia.
Defined.






(** ** [execute]: where its issues come from *)

Lemma state_change_addresses_outcome self statespace call st :
  state_change_addresses self statespace call st =
    match search_acc (fuel_for self 0) self statespace (call_node call)
            (current_transaction_id (call_state call))
            (call_state_index call + 1) 0 [] with
    | Ok (r, seen) =>
        Ok (r, {| heap := heap st ++ [r]; log := log st ++ map uid seen |})
    | Raise e => Raise e
    end.
Proof.
  unfold state_change_addresses. rewrite Py_bind_unfold. cbn [list_new].
  set (st0 := {| heap := heap st ++ [[]]; log := log st |}).
  assert (Hxs : heap st0 !! length (heap st) = Some [])
    by (simpl; by rewrite lookup_app_r, Nat.sub_diag by lia).
  rewrite Py_bind_unfold, (search_children_outcome _ _ _ _ _ _ _ []) by done.
  destruct (search_acc _ _ _ _ _ _ _ _) as [[r seen]|]; [|done].
  rewrite (list_read_acc _ r) by (by eapply updated_lookup).
  unfold updated, st0. simpl.
  by rewrite insert_app_r_alt, Nat.sub_diag by lia.
Qed.

Lemma execute_call_attributed statespace call self issues st issues' st' self' :
  execute_call statespace call self issues st = (Ok (issues', st'), self') ->
  exists new,
    issues' = issues ++ new
    /\ Forall (fun i => analysed call = true /\ issue_of statespace call i) new.
Proof.
  unfold execute_call, analysed.
  destruct (String.eqb (call_type call) "CALL"); simpl;
    [|intros H; inversion H; subst; exists []; by rewrite app_nil_r].
  destruct (gas_target_filter call);
    [|intros H; inversion H; subst; exists []; by rewrite app_nil_r].
  destruct (negb _).
  - rewrite state_change_addresses_outcome.
    destruct (search_acc _ _ _ _ _ _ _ _) as [[r seen]|] eqn:Hacc; [|done].
    intros H; inversion H; subst; clear H.
    exists (call_issue statespace call :: map (state_change_issue call) r).
    split; [by rewrite <- app_assoc|].
    constructor; [split; [done | by left]|].
    apply Forall_forall. intros i Hi.
    apply list_elem_of_fmap in Hi as (a & -> & Ha).
    split; [done|]. right. exists a. split; [done|].
    destruct (search_acc_sound _ _ _ _ _ _ _ _ _ _ Hacc a Ha) as [Hnil|?];
      [by apply elem_of_nil in Hnil | done].
  - intros H; inversion H; subst. exists [call_issue statespace call].
    split; [done|]. constructor; [|constructor]. split; [done | by left].
Qed.

Lemma execute_loop_attributed statespace todo :
  forall self issues st issues' st' self',
    execute_loop statespace todo self issues st = (Ok (issues', st'), self') ->
    exists new,
      issues' = issues ++ new
      /\ Forall (fun i => exists call, call ∈ todo /\ analysed call = true
                                       /\ issue_of statespace call i) new.
Proof.
  induction todo as [|call todo IH]; intros self issues st issues' st' self' H;
    simpl in H.
  - inversion H; subst. exists []. by rewrite app_nil_r.
  - destruct (execute_call statespace call self issues st)
      as [[[issues1 st1]|e] self1] eqn:Hcall; [|done].
    destruct (execute_call_attributed _ _ _ _ _ _ _ _ Hcall) as (new1 & -> & H1).
    destruct (IH _ _ _ _ _ _ H) as (new2 & -> & H2).
    exists (new1 ++ new2). split; [by rewrite app_assoc|].
    apply Forall_app. split.
    + eapply Forall_impl; [exact H1|]. intros i [Han Hi].
      exists call. split; [by left | done].
    + eapply Forall_impl; [exact H2|]. intros i (c & Hc & Hrest).
      exists c. split; [by right | done].
Qed.

(** X8. Every issue [execute] returns belongs to a call of the
    statespace that is of kind ["CALL"] and was let through by the
    filter: it is the call-level issue of that call, or it is the
    state-change issue of that call for the address of an [SSTORE] state,
    of the transaction of the call, in the node of the call or in a node
    reached from it without crossing a transaction boundary. *)
Theorem execute_issues_are_attributed :
  forall self statespace st issues st' self',
    execute self statespace st = (Ok (issues, st'), self') ->
    Forall (fun i => exists call,
                call ∈ calls statespace
                /\ call_type call = "CALL"
                /\ gas_target_filter call = true
                /\ issue_of statespace call i) issues.
Proof.
  intros self ss st issues st' self' H.
  destruct (execute_loop_attributed _ _ _ _ _ _ _ _ H) as (new & -> & Hnew).
  simpl. eapply Forall_impl; [exact Hnew|].
  intros i (call & Hin & Han & Hi). exists call. split; [done|].
  unfold analysed in Han. apply andb_true_iff in Han as [Hk Hf].
  by apply String.eqb_eq in Hk.
Qed.

Lemma execute_issues_are_attributed_witness :
  Forall (fun i => exists call,
              call ∈ calls Scenario.short
              /\ call_type call = "CALL"
              /\ gas_target_filter call = true
              /\ issue_of Scenario.short call i)
    [call_issue Scenario.short Scenario.the_call;
     state_change_issue Scenario.the_call 0x42;
     state_change_issue Scenario.the_call 0x42].
Proof.
  apply (execute_issues_are_attributed detector Scenario.short empty_store _
           {| heap := [[0x42; 0x42]]; log := [0; 2] |} (visit detector 0x10)).
  vm_compute. reflexivity.
Defined.

(** ** [execute]: when it returns and when it raises *)

Lemma state_change_addresses_error self statespace call st err :
  state_change_addresses self statespace call st = Raise err ->
  (err = IndexError /\ 0 < max_search_depth self
   /\ call_state_index call + 1
      < - Z.of_nat (length (states (call_node call))))
  \/ (exists b e,
        followed statespace (call_node call) b /\ e ∈ edges statespace
        /\ node_from e = uid b /\ edge_type e <> Transaction
        /\ nodes statespace !! node_to e = None
        /\ err = KeyError (node_to e)).
Proof.
  rewrite state_change_addresses_outcome.
  destruct (search_acc _ _ _ _ _ _ _ _) as [[r seen]|e] eqn:Hacc; [done|].
  intros H; inversion H; subst e.
  apply search_acc_error in Hacc; [done | unfold fuel_for; lia].
Qed.

Lemma execute_call_raises statespace call self issues st err self' :
  execute_call statespace call self issues st = (Raise err, self') ->
  analysed call = true
  /\ (address (call_state call) ∉ calls_visited self)
  /\ self' = visit self (address (call_state call))
  /\ state_change_addresses self' statespace call st = Raise err.
Proof.
  unfold execute_call, analysed.
  destruct (String.eqb (call_type call) "CALL"); [|done].
  destruct (gas_target_filter call); [|done].
  destruct (bool_decide (address (call_state call) ∈ calls_visited self))
    eqn:Hv; [done|]. simpl.
  apply bool_decide_eq_false in Hv.
  destruct (state_change_addresses _ _ _ st) as [[r st1]|e] eqn:Hs; [done|].
  intros H; inversion H; subst. by split_and!.
Qed.

Lemma execute_loop_raises statespace todo :
  forall self issues st err self',
    execute_loop statespace todo self issues st = (Raise err, self') ->
    exists call self0 issues0 st0,
      call ∈ todo
      /\ execute_call statespace call self0 issues0 st0 = (Raise err, self')
      /\ max_search_depth self0 = max_search_depth self
      /\ (forall a, a ∈ calls_visited self -> a ∈ calls_visited self0).
Proof.
  induction todo as [|call todo IH]; intros self issues st err self' H;
    simpl in H; [done|].
  destruct (execute_call statespace call self issues st)
    as [[[issues1 st1]|e] self1] eqn:Hcall.
  - destruct (IH _ _ _ _ _ H) as (c & self0 & issues0 & st0 & Hin & Hc & Hmax & Hcv).
    destruct (execute_call_self _ _ _ _ _ _ _ Hcall) as (Hmax1 & Hstep & _).
    exists c, self0, issues0, st0. split_and!; [by right | done | congruence |].
    intros a Ha. apply Hcv.
    destruct Hstep as [[-> _]|(_ & -> & _)]; [done|].
    apply elem_of_app. by left.
  - inversion H; subst. exists call, self, issues, st.
    split_and!; [by left | done..].
Qed.



(** X11. When [execute] raises, the exception comes from the search of
    one flagged call of kind ["CALL"] whose address was not visited
    before: an [IndexError] because the state index of the call plus one
    lies below [-len(call.node.states)], or a [KeyError] for the missing
    target of an edge behind the call.  The address of that call is by
    then the last of [calls_visited], and the exception does not take it
    out: on the same detector instance no later run searches from that
    call again, whatever the statespace it is given. *)
Theorem execute_failure_marks_address_visited :
  forall self statespace st err self',
    execute self statespace st = (Raise err, self') ->
    exists call,
      call ∈ calls statespace
      /\ call_type call = "CALL"
      /\ gas_target_filter call = true
      /\ (address (call_state call) ∉ calls_visited self)
      /\ (exists earlier,
            calls_visited self' = earlier ++ [address (call_state call)])
      /\ max_search_depth self' = max_search_depth self
      /\ ((err = IndexError
           /\ call_state_index call + 1
              < - Z.of_nat (length (states (call_node call))))
          \/ (exists b e,
                followed statespace (call_node call) b /\ e ∈ edges statespace
                /\ node_from e = uid b /\ edge_type e <> Transaction
                /\ nodes statespace !! node_to e = None
                /\ err = KeyError (node_to e)))
      /\ (forall statespace2 issues2 st2,
            execute_call statespace2 call self' issues2 st2
            = (Ok (issues2 ++ [call_issue statespace2 call], st2), self')).
Proof.
  intros self ss st err self' H.
  destruct (execute_loop_raises _ _ _ _ _ _ _ H)
    as (call & self0 & issues0 & st0 & Hin & Hcall & Hmax & Hcv).
  destruct (execute_call_raises _ _ _ _ _ _ _ Hcall) as (Han & Hfresh & -> & Hs).
  exists call.
  assert (Han' := Han). unfold analysed in Han'.
  apply andb_true_iff in Han' as [Hk Hf]. apply String.eqb_eq in Hk.
  split_and!; [done | done | done | | by eexists | done | |].
  - intros Ha. apply Hfresh. by apply Hcv.
  - apply state_change_addresses_error in Hs as [(-> & _ & Hlow)|Hkey];
      [by left | by right].
  - intros ss2 issues2 st2. rewrite execute_call_visited, Han; [done|].
    simpl. apply elem_of_app. right. by left.
Qed.

Lemma execute_failure_marks_address_visited_witness :
  execute detector Broken.dangling empty_store
  = (Raise (KeyError 7), visit detector 0x10)
  /\ exists call,
       call ∈ calls Broken.dangling
       /\ (exists earlier,
             calls_visited (visit detector 0x10)
             = earlier ++ [address (call_state call)])
       /\ (forall statespace2 issues2 st2,
             execute_call statespace2 call (visit detector 0x10) issues2 st2
             = (Ok (issues2 ++ [call_issue statespace2 call], st2),
                visit detector 0x10)).
Proof.
  assert (H : execute detector Broken.dangling empty_store
              = (Raise (KeyError 7), visit detector 0x10))
    by (vm_compute; reflexivity).
  split; [exact H|].
  destruct (execute_failure_marks_address_visited _ _ _ _ _ H)
    as (call & Hin & _ & _ & _ & Hlast & _ & _ & Hnext).
  exists call. by split_and!.
Defined.

(** ** [execute]: what has no effect *)

Lemma collect_children_with_calls statespace cs node es :
  forall children st,
    collect_children (with_calls statespace cs) node es children st =
    collect_children statespace node es children st.
Proof.
  induction es as [|e es IH]; intros children st; [done|].
  cbn [collect_children]. destruct (_ && _); [|apply IH].
  apply Py_bind_ext. intros c st'. apply IH.
Qed.

Lemma search_children_fuel_with_calls fuel :
  forall self statespace cs node tx start_index depth results st,
    search_children_fuel fuel self (with_calls statespace cs) node tx
      start_index depth results st =
    search_children_fuel fuel self statespace node tx start_index depth
      results st.
Proof.
  induction fuel as [|fuel IH];
    intros self ss cs node tx start depth results st; [done|].
  cbn [search_children_fuel].
  apply Py_bind_ext. intros l st1.
  apply Py_bind_ext. intros _ st2.
  destruct (depth <? max_search_depth self); [|done].
  apply (f_equal (fun m => match m with
                           | Ok (_, st') => Ok (l, st')
                           | Raise e => Raise e
                           end)).
  apply Py_bind_ext. intros _ st3.
  rewrite !Py_bind_unfold.
  change (edges (with_calls ss cs)) with (edges ss).
  rewrite collect_children_with_calls.
  destruct (collect_children ss node (edges ss) [] st3) as [[children st4]|];
    [|done].
  apply for_each_ext. intros child st5.
  rewrite !Py_bind_unfold, IH. reflexivity.
Qed.

Lemma execute_call_with_calls statespace cs call self issues st :
  execute_call (with_calls statespace cs) call self issues st =
  execute_call statespace call self issues st.
Proof.
  unfold execute_call.
  destruct (String.eqb (call_type call) "CALL"); [|done].
  destruct (gas_target_filter call); [|done].
  change (call_issue (with_calls statespace cs) call)
    with (call_issue statespace call).
  destruct (negb _); [|done].
  unfold state_change_addresses.
  rewrite !Py_bind_unfold.
  destruct (list_new st) as [[fresh st1]|]; [|done].
  rewrite !Py_bind_unfold. unfold search_children.
  by rewrite search_children_fuel_with_calls.
Qed.

Lemma execute_loop_with_calls statespace cs todo : forall self issues st,
  execute_loop (with_calls statespace cs) todo self issues st =
  execute_loop statespace todo self issues st.
Proof.
  induction todo as [|call todo IH]; intros self issues st; simpl; [done|].
  rewrite execute_call_with_calls.
  destruct (execute_call statespace call self issues st)
    as [[[issues1 st1]|e] self1]; [apply IH | done].
Qed.

Lemma execute_call_not_analysed statespace call self issues st :
  analysed call = false ->
  execute_call statespace call self issues st = (Ok (issues, st), self).
Proof.
  unfold execute_call, analysed.
  destruct (String.eqb (call_type call) "CALL"); [|done].
  simpl. by intros ->.
Qed.

Lemma execute_loop_filter statespace todo : forall self issues st,
  execute_loop statespace (List.filter analysed todo) self issues st =
  execute_loop statespace todo self issues st.
Proof.
  induction todo as [|call todo IH]; intros self issues st; simpl; [done|].
  destruct (analysed call) eqn:Han; simpl.
  - destruct (execute_call statespace call self issues st)
      as [[[issues1 st1]|e] self1]; [apply IH | done].
  - rewrite execute_call_not_analysed by done. apply IH.
Qed.

(** X10. Calls of another kind than ["CALL"], and calls that the filter
    stops, leave no trace: taking them out of [statespace.calls] changes
    neither the issues [execute] returns, nor the exception it raises,
    nor the addresses the detector has visited, nor the store. *)
Theorem execute_ignores_other_calls :
  forall self statespace st,
    execute self
      (with_calls statespace
         (List.filter (fun call => String.eqb (call_type call) "CALL"
                                   && gas_target_filter call)
            (calls statespace)))
      st
    = execute self statespace st.
Proof.
  intros self ss st. unfold execute.
  rewrite execute_loop_with_calls. apply execute_loop_filter.
Qed.

(** ** [execute]: a depth bound of zero *)

Lemma search_acc_no_depth fuel self statespace node tx start_index depth acc :
  max_search_depth self <= depth ->
  search_acc (S fuel) self statespace node tx start_index depth acc
  = Ok (acc, [node]).
Proof.
  intros Hd. cbn [search_acc]. by rewrite (proj2 (Z.ltb_ge _ _) Hd).
Qed.

Lemma execute_loop_no_depth statespace todo : forall self issues st,
  max_search_depth self <= 0 ->
  exists st' self',
    execute_loop statespace todo self issues st =
      (Ok (issues ++ map (call_issue statespace) (List.filter analysed todo), st'),
       self')
    /\ max_search_depth self' = max_search_depth self.
Proof.
  induction todo as [|call todo IH]; intros self issues st Hd; simpl.
  - exists st, self. by rewrite app_nil_r.
  - destruct (analysed call) eqn:Han.
    + assert (Hcall : exists st1 self1,
                execute_call statespace call self issues st
                = (Ok (issues ++ [call_issue statespace call], st1), self1)
                /\ max_search_depth self1 = max_search_depth self).
      { unfold execute_call. unfold analysed in Han.
        apply andb_true_iff in Han as [-> ->].
        destruct (negb _); [|by eexists _, _].
        rewrite state_change_addresses_outcome. unfold fuel_for.
        rewrite search_acc_no_depth by done. simpl.
        rewrite app_nil_r. by eexists _, _. }
      destruct Hcall as (st1 & self1 & -> & Hmax).
      destruct (IH self1 (issues ++ [call_issue statespace call]) st1
                  ltac:(lia)) as (st' & self' & -> & Hmax').
      exists st', self'. rewrite <- app_assoc. split; [done | congruence].
    + rewrite execute_call_not_analysed by done. by apply IH.
Qed.

(** X12. A detector whose [max_search_depth] is zero or negative never
    looks at the graph: on every statespace, malformed ones included,
    [execute] returns, and it returns exactly the call-level issues of
    the flagged calls, in order, and no state-change issue. *)
Theorem execute_without_depth :
  forall self statespace st,
    max_search_depth self <= 0 ->
    exists st' self',
      execute self statespace st
      = (Ok (map (call_issue statespace)
               (List.filter (fun call => String.eqb (call_type call) "CALL"
                                         && gas_target_filter call)
                  (calls statespace)),
             st'),
         self').
Proof.
  intros self ss st Hd.
  destruct (execute_loop_no_depth ss (calls ss) self [] st Hd)
    as (st' & self' & H & _).
  by exists st', self'.
Qed.

Lemma execute_without_depth_witness :
  exists st' self',
    execute (init 0) Broken.dangling empty_store
    = (Ok (map (call_issue Broken.dangling)
             (List.filter (fun call => String.eqb (call_type call) "CALL"
                                       && gas_target_filter call)
                (calls Broken.dangling)),
           st'),
       self').
Proof.
  apply (execute_without_depth (init 0) Broken.dangling empty_store).
  simpl. lia.
Defined.

(** ** [execute]: the visited addresses *)

Lemma execute_loop_visited_calls statespace todo :
  forall self issues st out self',
    execute_loop statespace todo self issues st = (out, self') ->
    max_search_depth self' = max_search_depth self
    /\ exists searched,
         calls_visited self' = calls_visited self ++ searched
         /\ forall a, a ∈ searched ->
              exists call, call ∈ todo /\ analysed call = true
                           /\ address (call_state call) = a.
Proof.
  induction todo as [|call todo IH]; intros self issues st out self' H;
    simpl in H.
  - inversion H; subst. split; [done|]. exists []. rewrite app_nil_r.
    split; [done|]. by intros a Ha%elem_of_nil.
  - assert (Hturn : forall o s1,
              execute_call statespace call self issues st = (o, s1) ->
              max_search_depth s1 = max_search_depth self
              /\ exists new,
                   calls_visited s1 = calls_visited self ++ new
                   /\ forall a, a ∈ new ->
                        analysed call = true /\ address (call_state call) = a).
    { intros o s1 Hcall.
      destruct (execute_call_self _ _ _ _ _ _ _ Hcall) as (Hmax & Hstep & Hnow).
      split; [done|]. destruct Hstep as [[Heq _]|(_ & Heq & _)].
      - exists []. rewrite app_nil_r. split; [done|]. by intros a Ha%elem_of_nil.
      - exists [address (call_state call)]. split; [done|].
        intros a ->%list_elem_of_singleton. split; [|done].
        destruct (analysed call) eqn:Han; [done|].
        rewrite execute_call_not_analysed in Hcall by done.
        inversion Hcall; subst.
        apply (f_equal length) in Heq. rewrite length_app in Heq.
        simpl in Heq. lia. }
    destruct (execute_call statespace call self issues st)
      as [[[issues1 st1]|e] self1] eqn:Hcall.
    + destruct (Hturn _ _ eq_refl) as (Hmax1 & new & Hcv1 & Hnew).
      destruct (IH _ _ _ _ _ H) as (Hmax & searched & Hcv & Hall).
      split; [congruence|]. exists (new ++ searched).
      split; [by rewrite Hcv, Hcv1, app_assoc|].
      intros a Ha. apply elem_of_app in Ha as [Ha|Ha].
      * destruct (Hnew a Ha) as [Han Hadr]. exists call.
        split; [by left | done].
      * destruct (Hall a Ha) as (c & Hc & Hrest). exists c.
        split; [by right | done].
    + inversion H; subst.
      destruct (Hturn _ _ eq_refl) as (Hmax1 & new & Hcv1 & Hnew).
      split; [done|]. exists new. split; [done|].
      intros a Ha. destruct (Hnew a Ha) as [Han Hadr]. exists call.
      split; [by left | done].
Qed.

(** X13. [execute] only ever appends to [calls_visited], and what it
    appends are addresses of flagged calls of kind ["CALL"] of the
    statespace; it never changes [max_search_depth].  This holds when it
    returns and when it raises. *)
Theorem execute_only_appends_call_addresses :
  forall self statespace st out self',
    execute self statespace st = (out, self') ->
    max_search_depth self' = max_search_depth self
    /\ exists searched,
         calls_visited self' = calls_visited self ++ searched
         /\ forall a, a ∈ searched ->
              exists call,
                call ∈ calls statespace
                /\ call_type call = "CALL"
                /\ gas_target_filter call = true
                /\ address (call_state call) = a.
Proof.
  intros self ss st out self' H.
  destruct (execute_loop_visited_calls _ _ _ _ _ _ _ H)
    as (Hmax & searched & Hcv & Hall).
  split; [done|]. exists searched. split; [done|].
  intros a Ha. destruct (Hall a Ha) as (call & Hin & Han & Hadr).
  exists call. unfold analysed in Han. apply andb_true_iff in Han as [Hk Hf].
  apply String.eqb_eq in Hk. by split_and!.
Qed.

Lemma execute_only_appends_call_addresses_witness :
  max_search_depth (visit detector 0x10) = max_search_depth detector
  /\ exists searched,
       calls_visited (visit detector 0x10) = calls_visited detector ++ searched
       /\ forall a, a ∈ searched ->
            exists call,
              call ∈ calls Broken.dangling
              /\ call_type call = "CALL"
              /\ gas_target_filter call = true
              /\ address (call_state call) = a.
Proof.
  apply (execute_only_appends_call_addresses detector Broken.dangling
           empty_store (Raise (KeyError 7))).
  vm_compute. reflexivity.
Defined.

(** ** The classification of a concrete destination *)

Lemma string_of_uint_digits d :
  all_chars digit_or_minus (NilEmpty.string_of_uint d) = true.
Proof. induction d; simpl; auto. Qed.

Lemma of_int_digits n : all_chars digit_or_minus (PyStr.of_int n) = true.
Proof.
  unfold PyStr.of_int, NilZero.string_of_int, NilZero.string_of_uint.
  destruct (Z.to_int n) as [d|d]; [|simpl];
    destruct d; try done; apply (string_of_uint_digits (_ _)).
Qed.

(** A text whose first character does not occur in [hay] is not a
    substring of it. *)
Lemma contains_foreign p c rest hay :
  all_chars p hay = true -> p c = false ->
  PyStr.contains (String c rest) hay = false.
Proof.
  intros Hall Hc. induction hay as [|h hay IH]; [done|].
  simpl in Hall. apply andb_true_iff in Hall as [Hh Hall].
  rewrite contains_unfold, prefix_cons.
  destruct (Ascii.ascii_dec c h) as [->|_]; [congruence|]. by apply IH.
Qed.

Lemma search_storage_foreign hay :
  all_chars digit_or_minus hay = true -> PyStr.search_storage hay = None.
Proof.
  intros Hall. induction hay as [|h hay IH]; [done|].
  simpl in Hall. apply andb_true_iff in Hall as [Hh Hall].
  rewrite search_storage_unfold.
  change (String.prefix "storage_" (String h hay))
    with (if Ascii.ascii_dec "s"%char h
          then String.prefix "torage_" hay else false).
  destruct (Ascii.ascii_dec "s"%char h) as [<-|_]; [done|]. by apply IH.
Qed.

(** X14. A call to a concrete destination that the filter lets through
    (its gas is symbolic and does not mention 2300) is always classified
    fixed/trusted: the rendering of an [int] has no "calldata", no
    "caller" and no storage slot in it, so the storage lookup is not
    even asked, and the issue has severity Informational. *)
Theorem concrete_destination_is_informational :
  forall statespace call val,
    call_to call = Concrete val ->
    _type (call_issue statespace call) = "Informational"
    /\ description (call_issue statespace call)
       = "This contract executes a message call to " +:+ trusted_advice
    /\ forall other_lookup,
         call_issue
           {| nodes := nodes statespace; edges := edges statespace;
              calls := calls statespace; find_storage_write := other_lookup |}
           call
         = call_issue statespace call.
Proof.
  intros ss call val Hto.
  assert (Hc : forall ss0, classify ss0 call
                 = ("This contract executes a message call to ", false)).
  { intros ss0. unfold classify. rewrite Hto. simpl.
    rewrite (contains_foreign digit_or_minus) by (apply of_int_digits || done).
    rewrite (contains_foreign digit_or_minus) by (apply of_int_digits || done).
    simpl. by rewrite search_storage_foreign by apply of_int_digits. }
  split_and!.
  - by apply (call_issue_trusted ss call _ (Hc ss)).
  - by apply (call_issue_trusted ss call _ (Hc ss)).
  - intros other. unfold call_issue. by rewrite !Hc.
Qed.

Lemma concrete_destination_is_informational_witness :
  _type (call_issue Scenario.chain
           (Scenario.call_with (Concrete 0xDEADBEEF) (Symbolic "gas")))
  = "Informational".
Proof.
  exact (proj1 (concrete_destination_is_informational Scenario.chain
                  (Scenario.call_with (Concrete 0xDEADBEEF) (Symbolic "gas"))
                  0xDEADBEEF eq_refl)).
Defined.

(** ** The storage-slot pattern *)

Lemma search_storage_match s : forall key,
  PyStr.search_storage s = Some key ->
  exists before after,
    s = before +:+ "storage_" +:+ key +:+ after
    /\ key <> ""
    /\ all_chars PyStr.slot_char key = true
    /\ starts_with PyStr.slot_char after = false
    /\ forall before' c after',
         s = before' +:+ "storage_" +:+ String c after' ->
         PyStr.slot_char c = true ->
         (String.length before <= String.length before')%nat.
Proof.
  induction s as [|c0 s IH]; intros key; rewrite search_storage_unfold;
    [done|].
  assert (Hlater : PyStr.search_storage s = Some key ->
            (forall c after', String c0 s = "storage_" +:+ String c after' ->
                              PyStr.slot_char c = true -> False) ->
            exists before after,
              String c0 s = before +:+ "storage_" +:+ key +:+ after
              /\ key <> ""
              /\ all_chars PyStr.slot_char key = true
              /\ starts_with PyStr.slot_char after = false
              /\ forall before' c after',
                   String c0 s = before' +:+ "storage_" +:+ String c after' ->
                   PyStr.slot_char c = true ->
                   (String.length before <= String.length before')%nat).
  { intros H Hhere.
    destruct (IH key H) as (b0 & a0 & Hs0 & Hne & Hall & Hend & Hleft).
    exists (String c0 b0), a0. split_and!; [by rewrite Hs0 at 1 | done..|].
    intros before' c after' Hs Hc. destruct before' as [|b before'].
    - exfalso. by eapply Hhere.
    - change (String c0 s
              = String b (before' +:+ "storage_" +:+ String c after')) in Hs.
      inversion Hs; subst b. simpl.
      apply le_n_S. by eapply Hleft. }
  destruct (String.prefix "storage_" (String c0 s)) eqn:Hp.
  - apply prefix_spec in Hp as [tail Hp]. rewrite Hp.
    change (PyStr.drop 8 ("storage_" +:+ tail)) with tail.
    destruct (span_rest PyStr.slot_char tail) as (rest & Htail & Hrest).
    pose proof (span_all PyStr.slot_char tail) as Hall.
    destruct (PyStr.span PyStr.slot_char tail) as [|k ks] eqn:Hspan.
    + rewrite <- Hp. intros H. apply Hlater; [done|].
      intros c after' Hs Hc. rewrite Hp in Hs.
      assert (Heq : tail = String c after')
        by (cbn [String.append] in Hs; by inversion Hs).
      rewrite Heq in Hspan. cbn [PyStr.span] in Hspan.
      by rewrite Hc in Hspan.
    + intros H. inversion H; subst key. exists "", rest.
      split_and!; [by rewrite Htail at 1 | done | done | done |].
      intros before' c after' _ _. simpl. lia.
  - intros H. apply Hlater; [done|].
    intros c after' Hs _.
    assert (Hp' : String.prefix "storage_" (String c0 s) = true)
      by (apply prefix_spec; by eexists).
    congruence.
Qed.

(** X15. The slot key that [re.search(r"storage_([a-z0-9_&^]+)", ...)]
    hands to the storage lookup: it is not empty, it is made of lower-case
    letters, digits, [_], [&] and [^] only, it stands right after an
    occurrence of "storage_" in the destination text and runs up to the
    first character outside that class (or the end), and no occurrence
    of "storage_" followed by such a character begins further to the
    left.  When nothing is found, the text has no "storage_" followed by
    a character of the class. *)
Theorem storage_slot_key :
  forall target,
    match PyStr.search_storage target with
    | Some key =>
        exists before after,
          target = before +:+ "storage_" +:+ key +:+ after
          /\ key <> ""
          /\ all_chars PyStr.slot_char key = true
          /\ starts_with PyStr.slot_char after = false
          /\ forall before' c after',
               target = before' +:+ "storage_" +:+ String c after' ->
               PyStr.slot_char c = true ->
               (String.length before <= String.length before')%nat
    | None =>
        forall before c after,
          target = before +:+ "storage_" +:+ String c after ->
          PyStr.slot_char c = false
    end.
Proof.
  intros target. destruct (PyStr.search_storage target) as [key|] eqn:H.
  - by apply search_storage_match.
  - intros before c after. by apply search_storage_none.
Qed.

Lemma storage_slot_key_witness :
  exists before after,
    "Extract(159, 0, storage_3)" = before +:+ "storage_" +:+ "3" +:+ after
    /\ "3" <> ""
    /\ all_chars PyStr.slot_char "3" = true
    /\ starts_with PyStr.slot_char after = false
    /\ forall before' c after',
         "Extract(159, 0, storage_3)"
         = before' +:+ "storage_" +:+ String c after' ->
         PyStr.slot_char c = true ->
         (String.length before <= String.length before')%nat.
Proof. exact (storage_slot_key "Extract(159, 0, storage_3)"). Defined.

(** ** A negative start index *)

Lemma scan_acc_app node tx js1 js2 : forall acc,
  scan_acc node tx (js1 ++ js2) acc =
    match scan_acc node tx js1 acc with
    | Ok r => scan_acc node tx js2 r
    | Raise e => Raise e
    end.
Proof.
  induction js1 as [|j js1 IH]; intros acc; simpl; [done|].
  destruct (getitem (states node) j); [apply IH | done].
Qed.

Lemma scan_acc_from_end node tx (k : nat) : forall start acc,
  - Z.of_nat (length (states node)) <= start ->
  start + Z.of_nat k = 0 ->
  scan_acc node tx (seqZ start (Z.of_nat k)) acc =
    Ok (acc ++ sstore_addresses tx
                 (drop (Z.to_nat (Z.of_nat (length (states node)) + start))
                    (states node))).
Proof.
  induction k as [|k IH]; intros start acc Hlo Hend.
  - simpl. rewrite drop_ge by lia. by rewrite app_nil_r.
  - rewrite seqZ_cons by lia. simpl.
    set (i := Z.to_nat (Z.of_nat (length (states node)) + start)).
    destruct (lookup_lt_is_Some_2 (states node) i) as [s Hs]; [lia|].
    assert (Hget : getitem (states node) start = Some s).
    { unfold getitem. rewrite (proj2 (Z.leb_gt 0 start)) by lia.
      by rewrite (proj2 (Z.leb_le _ start)) by lia. }
    rewrite Hget.
    replace (Z.pred (Z.of_nat (S k))) with (Z.of_nat k) by lia.
    rewrite IH by lia.
    rewrite (drop_S _ _ _ Hs). unfold sstore_addresses. simpl.
    replace (Z.to_nat (Z.of_nat (length (states node)) + Z.succ start))
      with (S i) by lia.
    destruct (sstore_in tx s); simpl; [by rewrite <- app_assoc | done].
Qed.

(** X16. A negative start index down to [-len(node.states)] counts from
    the end, as Python subscripts do: on a node without children the
    search first records the storage writes among the last
    [-start_index] states and then those of the whole node, so that the
    writes among the last states are returned twice. *)
Theorem search_children_negative_start :
  forall self statespace node transaction_id start_index depth l xs st,
    heap st !! l = Some xs ->
    depth < max_search_depth self ->
    - Z.of_nat (length (states node)) <= start_index < 0 ->
    (forall e, e ∈ edges statespace -> node_from e = uid node ->
               edge_type e = Transaction) ->
    search_children self statespace node transaction_id start_index depth
      (Some l) st
    = Ok (l, {| heap :=
                  <[l := xs
                         ++ sstore_addresses transaction_id
                              (drop (Z.to_nat (Z.of_nat (length (states node))
                                               + start_index))
                                 (states node))
                         ++ sstore_addresses transaction_id (states node)]>
                    (heap st);
                log := log st ++ [uid node] |}).
Proof.
  intros self ss node tx start depth l xs st Hxs Hd [Hlo Hneg] Hleaf.
  rewrite (search_children_outcome _ _ _ _ _ _ _ xs) by done.
  unfold fuel_for. cbn [search_acc]. rewrite (proj2 (Z.ltb_lt _ _) Hd).
  rewrite (proj2 (Z.gtb_lt _ _)) by lia.
  replace (Z.of_nat (length (states node)) - start)
    with (Z.of_nat (Z.to_nat (- start)) + Z.of_nat (length (states node)))
    by lia.
  rewrite seqZ_app by lia. rewrite scan_acc_app.
  rewrite scan_acc_from_end by lia.
  replace (start + Z.of_nat (Z.to_nat (- start))) with 0 by lia.
  rewrite (scan_acc_from node tx (length (states node)) 0) by (simpl; lia).
  rewrite children_acc_no_edge by done. simpl.
  unfold updated. by rewrite <- app_assoc.
Qed.

Lemma search_children_negative_start_witness :
  search_children detector Scenario.across Scenario.writer 1 (-1) 0
    (Some 0%nat) Scenario.one_list
  = Ok (0%nat, {| heap := [[0x42; 0x42]]; log := [2] |}).
Proof.
  apply (search_children_negative_start detector Scenario.across
           Scenario.writer 1 (-1) 0 0%nat [] Scenario.one_list).
  - reflexivity.
  - simpl. lia.
  - simpl. lia.
  - intros e He Hfrom. apply list_elem_of_singleton in He. by subst e.
Defined.

(** ** Exactly which addresses are returned *)

Lemma sstore_addresses_spec tx sts a :
  a ∈ sstore_addresses tx sts <->
  exists s, s ∈ sts /\ opcode s = "SSTORE" /\ current_transaction_id s = tx
            /\ address s = a.
Proof.
  split.
  - intros H. apply list_elem_of_fmap in H as (s & -> & Hs).
    apply list_elem_of_In, filter_In in Hs as [Hin Hhit].
    apply sstore_in_spec in Hhit as [Hop Htx].
    exists s. split; [by apply list_elem_of_In | done].
  - intros (s & Hs & Hop & Htx & <-). by apply sstore_addresses_elem.
Qed.

(** With start index 0, what a search adds comes from nodes within the
    depth that is left. *)
Lemma search_acc_within fuel :
  forall self statespace node tx depth acc r seen,
    search_acc fuel self statespace node tx 0 depth acc = Ok (r, seen) ->
    forall a, a ∈ r ->
      a ∈ acc
      \/ exists k, depth + Z.of_nat k < max_search_depth self
                   /\ write_at_distance statespace node tx k a.
Proof.
  induction fuel as [|fuel IH];
    intros self ss node tx depth acc r seen H a Ha; [done|].
  cbn [search_acc] in H.
  destruct (depth <? max_search_depth self) eqn:Hd;
    [|inversion H; subst; by left].
  apply Z.ltb_lt in Hd. rewrite scan_acc_whole in H.
  destruct (children_acc ss node (edges ss) []) as [cs|] eqn:Hcs; [|done].
  destruct (loop_acc _ cs _) as [[r1 s1]|] eqn:Hl; [|done].
  inversion H; subst r1 seen; clear H.
  assert (Hloop : a ∈ acc ++ sstore_addresses tx (states node)
                  \/ exists k, depth + Z.of_nat k < max_search_depth self
                               /\ write_at_distance ss node tx k a).
  { eapply (loop_acc_sound _
              (fun x => exists k, depth + Z.of_nat k < max_search_depth self
                                  /\ write_at_distance ss node tx k x));
      [|exact Hl|exact Ha].
    intros c a0 r' s' Hin Hc x Hx. cbv beta in Hc.
    destruct (IH _ _ _ _ _ _ _ _ Hc x Hx) as [?|(k & Hk & Hw)]; [by left|].
    right. exists (S k). split; [lia|].
    apply (children_acc_elem _ _ _ _ _ Hcs) in Hin
      as [Hin|(e & He & Hf & Ht & Hn)]; [by apply elem_of_nil in Hin|].
    destruct Hw as (target & s & Hhops & Hrest). exists target, s.
    split; [|done]. by eapply hops_next. }
  destruct Hloop as [Hin|?]; [|by right].
  apply elem_of_app in Hin as [?|Hin]; [by left|]. right.
  exists 0%nat. split; [lia|].
  apply sstore_addresses_spec in Hin as (s & Hs & Hrest).
  exists node, s. split; [apply hops_here | done].
Qed.

(** X17. Which addresses a search returns.  Called with a list and a
    start index that is not negative, a search that returns leaves in
    the list exactly: what was there; and, if it was called below the
    depth bound, the addresses of the storage writes of the transaction
    among the states of its node from the start index on, and those in
    the nodes [k >= 1] edges away (none a transaction boundary) as long
    as depth plus [k] stays below [max_search_depth]. *)
Theorem search_children_returns_exactly :
  forall self statespace node transaction_id start_index depth l xs st
         l' st' r,
    heap st !! l = Some xs ->
    0 <= start_index ->
    search_children self statespace node transaction_id start_index depth
      (Some l) st = Ok (l', st') ->
    heap st' !! l' = Some r ->
    forall a,
      a ∈ r <->
      a ∈ xs
      \/ (depth < max_search_depth self
          /\ (a ∈ sstore_addresses transaction_id
                    (drop (Z.to_nat start_index) (states node))
              \/ exists k,
                   depth + Z.of_nat (S k) < max_search_depth self
                   /\ write_at_distance statespace node transaction_id
                        (S k) a)).
Proof.
  intros self ss node tx start depth l xs st l' st' r Hxs H0 H Hr a.
  destruct (search_children_inv _ _ _ _ _ _ _ _ _ _ _ Hxs H)
    as (r0 & seen & Hacc & -> & -> & Hr0).
  rewrite Hr in Hr0. inversion Hr0; subst r0; clear Hr0.
  assert (Hacc' := Hacc). unfold fuel_for in Hacc. cbn [search_acc] in Hacc.
  destruct (depth <? max_search_depth self) eqn:Hd.
  - apply Z.ltb_lt in Hd. rewrite scan_acc_own in Hacc by done.
    destruct (children_acc ss node (edges ss) []) as [cs|] eqn:Hcs; [|done].
    destruct (loop_acc _ cs _) as [[r1 s1]|] eqn:Hl; [|done].
    inversion Hacc; subst r1 seen; clear Hacc. split.
    + intros Ha.
      assert (Hloop :
        a ∈ xs ++ sstore_addresses tx (drop (Z.to_nat start) (states node))
        \/ exists k, depth + Z.of_nat (S k) < max_search_depth self
                     /\ write_at_distance ss node tx (S k) a).
      { eapply (loop_acc_sound _
                  (fun x => exists k,
                     depth + Z.of_nat (S k) < max_search_depth self
                     /\ write_at_distance ss node tx (S k) x));
          [|exact Hl|exact Ha].
        intros c a0 r' s' Hin Hc x Hx. cbv beta in Hc.
        destruct (search_acc_within _ _ _ _ _ _ _ _ _ Hc x Hx)
          as [?|(k & Hk & Hw)]; [by left|].
        right. exists k. split; [lia|].
        apply (children_acc_elem _ _ _ _ _ Hcs) in Hin
          as [Hin|(e & He & Hf & Ht & Hn)]; [by apply elem_of_nil in Hin|].
        destruct Hw as (target & s & Hhops & Hrest). exists target, s.
        split; [|done]. by eapply hops_next. }
      destruct Hloop as [Hin|Hfar]; [|right; split; [done | by right]].
      apply elem_of_app in Hin as [?|?]; [by left|].
      right. split; [done | by left].
    + assert (Hpre : (xs ++ sstore_addresses tx
                              (drop (Z.to_nat start) (states node)))
                     `prefix_of` r).
      { eapply loop_acc_prefix; [|exact Hl].
        intros c a0 r' s' Hc. cbv beta in Hc. by eapply search_acc_prefix. }
      intros [Hin|[_ [Hin|(k & Hk & target & s & Hhops & Hs & Hop & Htx & <-)]]].
      * eapply elem_of_prefix; [|exact Hpre]. apply elem_of_app. by left.
      * eapply elem_of_prefix; [|exact Hpre]. apply elem_of_app. by right.
      * assert (Hcount : (2 ^ S k <= count_occ Z.eq_dec r (address s))%nat).
        { inversion Hhops as [|k' a0 b c e He Hfrom Hty Hb Hrest]; subst.
          change (2 ^ S k)%nat with (2 * 2 ^ k)%nat.
          apply (search_acc_count_step
                   (Z.to_nat (max_search_depth self - depth)) self ss node b e
                   (current_transaction_id s) start depth xs r (node :: s1)
                   (address s) (2 ^ k));
            [exact He|exact Hfrom|exact Hty|exact Hb|lia| |exact Hacc'].
          intros a0 r1 s2 Hc.
          eapply search_acc_count; [exact Hrest| |done..]. lia. }
        apply list_elem_of_In, (count_occ_In Z.eq_dec).
        pose proof (Nat.pow_nonzero 2 (S k) ltac:(lia)). lia.
  - inversion Hacc; subst. apply Z.ltb_ge in Hd. split; [by left|].
    intros [?|[Hlt _]]; [done | lia].
Qed.

Lemma search_children_returns_exactly_witness :
  0x42 ∈ [0x42; 0x42; 0x42; 0x42] <->
  0x42 ∈ []
  \/ (0 < max_search_depth detector
      /\ (0x42 ∈ sstore_addresses 1
                   (drop (Z.to_nat 1) (states Scenario.call_site))
          \/ exists k,
               0 + Z.of_nat (S k) < max_search_depth detector
               /\ write_at_distance Scenario.chain Scenario.call_site 1
                    (S k) 0x42)).
Proof.
  apply (search_children_returns_exactly detector Scenario.chain
           Scenario.call_site 1 1 0 0%nat [] Scenario.one_list 0%nat
           {| heap := [[0x42; 0x42; 0x42; 0x42]]; log := [0; 1; 2] |}).
  - reflexivity.
  - lia.
  - vm_compute. reflexivity.
  - reflexivity.
Defined.

(** ** The fields of the issues *)

(** X18. Every issue [execute] returns carries the reentrancy id, one of
    the two titles and one of the two severities, and takes contract
    name, function name, bytecode and gas range from one flagged call of
    the statespace: from the node and the state of the call, also when
    the issue reports a storage write in another node.  Its address is
    that of the call instruction when it is titled "Message call to
    external contract". *)
Theorem execute_issue_fields :
  forall self statespace st issues st' self',
    execute self statespace st = (Ok (issues, st'), self') ->
    Forall (fun i =>
      swc_id i = REENTRANCY
      /\ ((title i = "Message call to external contract"
           /\ (_type i = "Warning" \/ _type i = "Informational"))
          \/ (title i = "State change after external call"
              /\ _type i = "Warning"))
      /\ exists call,
           call ∈ calls statespace
           /\ contract i = contract_name (call_node call)
           /\ issue_function_name i = function_name (call_node call)
           /\ issue_bytecode i = bytecode (call_state call)
           /\ gas_used i = (min_gas_used (call_state call),
                            max_gas_used (call_state call))
           /\ (title i = "Message call to external contract" ->
               issue_address i = address (call_state call))) issues.
Proof.
  intros self ss st issues st' self' H.
  destruct (execute_loop_attributed _ _ _ _ _ _ _ _ H) as (new & -> & Hnew).
  simpl. eapply Forall_impl; [exact Hnew|].
  intros i (call & Hin & _ & [->|(a & -> & _)]).
  - unfold call_issue. destruct (classify ss call) as [d []]; simpl.
    + split_and!; [done | left; split; [done | by left] |].
      exists call. by split_and!.
    + split_and!; [done | left; split; [done | by right] |].
      exists call. by split_and!.
  - split_and!; [done | by right |]. exists call. by split_and!.
Qed.

Lemma execute_issue_fields_witness :
  Forall (fun i =>
    swc_id i = REENTRANCY
    /\ ((title i = "Message call to external contract"
         /\ (_type i = "Warning" \/ _type i = "Informational"))
        \/ (title i = "State change after external call"
            /\ _type i = "Warning"))
    /\ exists call,
         call ∈ calls Scenario.short
         /\ contract i = contract_name (call_node call)
         /\ issue_function_name i = function_name (call_node call)
         /\ issue_bytecode i = bytecode (call_state call)
         /\ gas_used i = (min_gas_used (call_state call),
                          max_gas_used (call_state call))
         /\ (title i = "Message call to external contract" ->
             issue_address i = address (call_state call)))
    [call_issue Scenario.short Scenario.the_call;
     state_change_issue Scenario.the_call 0x42;
     state_change_issue Scenario.the_call 0x42].
Proof.
  apply (execute_issue_fields detector Scenario.short empty_store _
           {| heap := [[0x42; 0x42]]; log := [0; 2] |} (visit detector 0x10)).
  vm_compute. reflexivity.
Defined.
